(** * rbuild: the symbol indexer of rtags (src/rbuild/RBuild.cpp)

    A shallow embedding of the indexing engine: cursor keys and their
    ordering, the entry store filled by the AST visitor [collectSymbols],
    the back-reference pass and the writers of [RBuild::writeData], the
    inclusion walker [getInclusions] and the staleness scan of
    [RBuild::updateDB].

    libclang, Qt and leveldb are outside the repository.  libclang is an
    interface ([FrontEnd]); a [QByteArray] or [AtomicString] is a [string];
    [QHash] and [QSet] are [gmap] and [gset]; a [QDataStream] is the list of
    the items written to it; the leveldb database is a finite map from key
    strings to values, iterated in byte order of its keys. *)

From Stdlib Require Import ZArith NArith Ascii String List Bool Lia.
From stdpp Require Import base gmap sets list strings pretty sorting.

Open Scope string_scope.
Open Scope Z_scope.

(** ** Strings and byte arrays *)

(** Modelled from the spec: [AtomicString::strcmp] (AtomicString.h is not
    part of the sources at hand).  The spec orders keys "byte-wise"; this is
    the byte-wise lexicographic comparison of the two strings, negative,
    zero or positive as C's strcmp. *)
Fixpoint strcmp (a b : string) : Z :=
  match a, b with
  | EmptyString, EmptyString => 0
  | EmptyString, String _ _ => -1
  | String _ _, EmptyString => 1
  | String x a', String y b' =>
      if (N_of_ascii x <? N_of_ascii y)%N then -1
      else if (N_of_ascii y <? N_of_ascii x)%N then 1
      else strcmp a' b'
  end.

Definition isEmpty (s : string) : bool :=
  match s with EmptyString => true | String _ _ => false end.

(** [QByteArray::number] of an unsigned value: its decimal digits. *)
Definition number (n : N) : string := pretty n.

(** [QByteArray::indexOf(char)]: the first position of the character, or
    [-1]. *)
Fixpoint indexOf (c : ascii) (s : string) : Z :=
  match s with
  | EmptyString => -1
  | String x s' =>
      if Ascii.eqb x c then 0
      else let i := indexOf c s' in if i =? -1 then -1 else i + 1
  end.

Fixpoint take_string (n : nat) (s : string) : string :=
  match n, s with
  | O, _ => EmptyString
  | S _, EmptyString => EmptyString
  | S n', String x s' => String x (take_string n' s')
  end.

(** [QByteArray::left(len)] and, for the lengths that [collectDict] passes
    (never negative), [AtomicString(const char*, len)]: the first [len]
    bytes, none when [len] is negative. *)
Definition left (len : Z) (s : string) : string :=
  take_string (Z.to_nat len) s.

Definition qsize (s : string) : Z := Z.of_nat (String.length s).

(** ** Cursor kinds (enum CXCursorKind of clang-c/Index.h) *)

Definition CXCursorKind := Z.

Definition CXCursor_StructDecl : CXCursorKind := 2.
Definition CXCursor_ClassDecl : CXCursorKind := 4.
Definition CXCursor_FieldDecl : CXCursorKind := 6.
Definition CXCursor_VarDecl : CXCursorKind := 9.
Definition CXCursor_CXXMethod : CXCursorKind := 21.
Definition CXCursor_Namespace : CXCursorKind := 22.
Definition CXCursor_Constructor : CXCursorKind := 24.
Definition CXCursor_Destructor : CXCursorKind := 25.
Definition CXCursor_FirstRef : CXCursorKind := 40.
Definition CXCursor_LastRef : CXCursorKind := 49.
Definition CXCursor_FirstInvalid : CXCursorKind := 70.
Definition CXCursor_LastInvalid : CXCursorKind := 73.
Definition CXCursor_FirstExpr : CXCursorKind := 100.
Definition CXCursor_CallExpr : CXCursorKind := 103.
Definition CXCursor_LastExpr : CXCursorKind := 136.
Definition CXCursor_MacroDefinition : CXCursorKind := 501.
Definition CXCursor_InclusionDirective : CXCursorKind := 503.

Definition clang_isInvalid (k : CXCursorKind) : bool :=
  (CXCursor_FirstInvalid <=? k) && (k <=? CXCursor_LastInvalid).

(** ** The front end

    What the indexer reads from libclang.  The file, line,
    column and offset of a cursor are those of the instantiation location
    of [clang_getCursorLocation]; [semanticAncestors c] is the finite chain
    [clang_getCursorSemanticParent c], its semantic parent, and so on, that
    the loop of [addCursor] walks. *)
Class FrontEnd := {
  CXCursor : Type;
  clang_getNullCursor : CXCursor;
  clang_getCursorKind : CXCursor -> CXCursorKind;
  clang_getFileName : CXCursor -> string;
  cursorLine : CXCursor -> N;
  cursorColumn : CXCursor -> N;
  cursorOffset : CXCursor -> N;
  clang_getCursorDisplayName : CXCursor -> string;
  clang_isCursorDefinition : CXCursor -> bool;
  clang_getCursorDefinition : CXCursor -> CXCursor;
  clang_getCursorReferenced : CXCursor -> CXCursor;
  semanticAncestors : CXCursor -> list CXCursor;
  clang_getIncludedFileName : CXCursor -> string
}.

(** [Path] (Path.h is not part of the sources at hand): a path is a byte
    string; [resolved] is [Path::resolved], the absolute, symlink-free form,
    and [lastModified] is [Path::lastModified], the modification time of the
    file on disk at the time of the call. *)
Abbreviation Path := string.
Abbreviation time_t := Z.

Class FileSystem := {
  resolved : Path -> Path;
  lastModified : Path -> time_t
}.

(** ** CursorKey *)

Record CursorKey := mkCursorKey {
  kind : CXCursorKind;
  fileName : string;
  symbolName : string;
  line : N;
  col : N;
  off : N;
  def : bool
}.

(** The default constructor [CursorKey()]. *)
Definition nullKey : CursorKey :=
  mkCursorKey CXCursor_FirstInvalid "" "" 0 0 0 false.

Section Keys.
Context `{FE : FrontEnd} `{FS : FileSystem}.

Definition cursorDefinition (c : CXCursor) : bool :=
  if clang_getCursorKind c =? CXCursor_MacroDefinition then true
  else clang_isCursorDefinition c.

Definition cursorDefinitionFor (d c : CXCursor) : bool :=
  if clang_getCursorKind c =? CXCursor_CallExpr then false
  else cursorDefinition d.

(** The constructor [CursorKey(const CXCursor &)]. *)
Definition CursorKey_of (cursor : CXCursor) : CursorKey :=
  let k := clang_getCursorKind cursor in
  if negb (clang_isInvalid k) then
    mkCursorKey k (resolved (clang_getFileName cursor))
      (clang_getCursorDisplayName cursor)
      (cursorLine cursor) (cursorColumn cursor) (cursorOffset cursor)
      (cursorDefinition cursor)
  else mkCursorKey k "" "" 0 0 0 false.
End Keys.

Definition isValid (k : CursorKey) : bool :=
negb (isEmpty (fileName k)) && negb (isEmpty (symbolName k)).

Definition isNull (k : CursorKey) : bool := negb (isValid k).

Definition isDefinition (k : CursorKey) : bool := def k.

(** [CursorKey::operator<]. *)
Definition key_lt (a other : CursorKey) : bool :=
if negb (isValid a) then true
else if negb (isValid other) then false
else
  let ret := strcmp (fileName a) (fileName other) in
  if ret <? 0 then true
  else if ret >? 0 then false
  else if (off a <? off other)%N then true
  else if (off other <? off a)%N then false
  else
    let ret := strcmp (symbolName a) (symbolName other) in
    if ret <? 0 then true
    else if ret >? 0 then false
    else kind a <? kind other.

(** [CursorKey::operator==] and [operator!=]. *)
Definition key_eq (a other : CursorKey) : bool :=
if isNull a then isNull other
else (kind a =? kind other)
     && (off a =? off other)%N
     && String.eqb (fileName a) (fileName other)
     && String.eqb (symbolName a) (symbolName other).

Definition key_ne (a other : CursorKey) : bool := negb (key_eq a other).

Definition locationKey (k : CursorKey) : string :=
fileName k ++ ":" ++ number (off k).

Definition cursorKeyToString (key : CursorKey) : string :=
fileName key ++ ":" ++ number (line key) ++ ":" ++ number (col key).

Definition equalLocation (key1 key2 : CursorKey) : bool :=
(off key1 =? off key2)%N && String.eqb (fileName key1) (fileName key2).

(** ** Aborting computations

    [Abort] is the end of the process: a failed [Q_ASSERT] (assertions are
    compiled in, as in a debug build), or the use of a pointer that points
    to no entry. *)

Inductive Result (A : Type) : Type :=
| Ok (a : A)
| Abort.
Arguments Ok {A} a.
Arguments Abort {A}.

#[global] Instance Result_bind : MBind Result := λ A B f m,
  match m with
  | Ok a => f a
  | Abort => Abort
  end.

Definition Q_ASSERT (cond : bool) : Result unit :=
  if cond then Ok tt else Abort.

(** ** The entry store (struct CollectData) *)

Module Data.
Record Data := mk {
  cursor : CursorKey;
  parentNames : list string
}.
End Data.

Record DataEntry := mkDataEntry {
  hasDefinition : bool;
  cursor : Data.Data;
  reference : Data.Data;
  references : gset string
}.

(** Modelled from the spec: [GccArguments] (GccArguments.h is not part of
    the sources at hand), the "compile arguments" of a translation unit: an
    argument list, empty when default-constructed. *)
Abbreviation GccArguments := (list string).

Record Dependencies := mkDependencies {
  file : Path;
  arguments : GccArguments;
  dep_lastModified : time_t;
  dep_dependencies : gmap Path time_t
}.

(** A [DataEntry*] is the position of the entry in [data]: entries are
    appended by [new DataEntry] and never freed during a run. *)
Abbreviation EntryPtr := nat.

Record CollectData := mkCollectData {
  seen : gmap string EntryPtr;
  data : list DataEntry;
  dependencies : list Dependencies
}.

(** [DataEntry()]: both keys default-constructed. *)
Definition newDataEntry : DataEntry :=
  mkDataEntry false (Data.mk nullKey []) (Data.mk nullKey []) ∅.

Definition emptyCollectData : CollectData := mkCollectData ∅ [] [].

(** Assignment through an entry pointer. *)
Definition setEntry (p : EntryPtr) (e : DataEntry) (d : CollectData) : CollectData :=
  mkCollectData (seen d) (<[p := e]> (data d)) (dependencies d).

Inductive CXChildVisitResult :=
| CXChildVisit_Break
| CXChildVisit_Continue
| CXChildVisit_Recurse.

Section Collect.
Context `{FE : FrontEnd} `{FS : FileSystem}.

Definition isContainer (k : CXCursorKind) : bool :=
  (k =? CXCursor_StructDecl) || (k =? CXCursor_ClassDecl) || (k =? CXCursor_Namespace).

(** The loop of [addCursor] over the semantic parents; it stops at the first
    parent whose key is not valid. *)
Fixpoint addParents (parents : list CXCursor) (names : list string) : Result (list string) :=
  match parents with
  | [] => Ok names
  | parent :: rest =>
      let parentKey := CursorKey_of parent in
      if negb (isValid parentKey) then Ok names
      else if isContainer (kind parentKey) then
        Q_ASSERT (negb (isEmpty (symbolName parentKey))) ;;
        addParents rest (names ++ [symbolName parentKey])
      else addParents rest names
  end.

Definition addCursor (c : CXCursor) (key : CursorKey) (d : Data.Data) : Result Data.Data :=
  Q_ASSERT (isValid key) ;;
  names ← addParents (semanticAncestors c) (Data.parentNames d);
  Ok (Data.mk key names).

(** The key of the included file built for an inclusion directive. *)
Definition inclusionKey (c : CXCursor) : CursorKey :=
  let name := clang_getIncludedFileName c in
  mkCursorKey CXCursor_FirstInvalid name name 1 1 0 false.

(** The part of [collectSymbols] after the entry [entry], at [p], has been
    found or created. *)
Definition updateEntry (c : CXCursor) (key : CursorKey) (p : EntryPtr)
    (entry : DataEntry) (d : CollectData) : Result (CXChildVisitResult * CollectData) :=
  if kind key =? CXCursor_InclusionDirective then
    cur ← addCursor c key (cursor entry);
    ref ← addCursor clang_getNullCursor (inclusionKey c) (reference entry);
    Ok (CXChildVisit_Continue,
        setEntry p (mkDataEntry true cur ref (references entry)) d)
  else
    let definition := clang_getCursorDefinition c in
    if negb (cursorDefinition definition)
       || equalLocation key (CursorKey_of definition) then
      if isNull (Data.cursor (reference entry))
         || key_eq (Data.cursor (reference entry)) (Data.cursor (cursor entry)) then
        let ref := clang_getCursorReferenced c in
        let referenceKey := CursorKey_of ref in
        if isValid referenceKey then
          cur ← addCursor c key (cursor entry);
          r ← addCursor ref referenceKey (reference entry);
          Ok (CXChildVisit_Recurse,
              setEntry p (mkDataEntry (hasDefinition entry) cur r (references entry)) d)
        else Ok (CXChildVisit_Recurse, d)
      else Ok (CXChildVisit_Recurse, d)
    else
      let hasDef :=
        if cursorDefinitionFor definition c then true else hasDefinition entry in
      cur ← addCursor c key (cursor entry);
      let definitionKey := CursorKey_of definition in
      r ← (if isValid definitionKey
           then addCursor definition definitionKey (reference entry)
           else Ok (reference entry));
      Ok (CXChildVisit_Recurse,
          setEntry p (mkDataEntry hasDef cur r (references entry)) d).

Definition collectSymbols (c : CXCursor) (d : CollectData)
    : Result (CXChildVisitResult * CollectData) :=
  let key := CursorKey_of c in
  if negb (isValid key) then Ok (CXChildVisit_Recurse, d)
  else
    match seen d !! locationKey key with
    | Some p =>
        match data d !! p with
        | Some entry =>
            if hasDefinition entry then Ok (CXChildVisit_Recurse, d)
            else updateEntry c key p entry d
        | None => Abort
        end
    | None =>
        let p := length (data d) in
        let d' := mkCollectData (<[locationKey key := p]> (seen d))
                    (data d ++ [newDataEntry]) (dependencies d) in
        updateEntry c key p newDataEntry d'
    end.

(** [clang_visitChildren]: the children of a cursor are visited in order;
    the visitor's answer decides whether the traversal stops, goes on with
    the next sibling, or first descends. *)
#[warnings="-register-all"]
Inductive AST := Node (c : CXCursor) (children : list AST).

Fixpoint visit (t : AST) (d : CollectData) : Result (bool * CollectData) :=
  match t with
  | Node c children =>
      match collectSymbols c d with
      | Abort => Abort
      | Ok (CXChildVisit_Break, d') => Ok (true, d')
      | Ok (CXChildVisit_Continue, d') => Ok (false, d')
      | Ok (CXChildVisit_Recurse, d') =>
          (fix visitAll (ts : list AST) (d : CollectData) : Result (bool * CollectData) :=
             match ts with
             | [] => Ok (false, d)
             | t' :: rest =>
                 match visit t' d with
                 | Abort => Abort
                 | Ok (true, d'') => Ok (true, d'')
                 | Ok (false, d'') => visitAll rest d''
                 end
             end) children d'
      end
  end.

Fixpoint visitChildren (ts : list AST) (d : CollectData) : Result (bool * CollectData) :=
  match ts with
  | [] => Ok (false, d)
  | t :: rest =>
      match visit t d with
      | Abort => Abort
      | Ok (true, d') => Ok (true, d')
      | Ok (false, d') => visitChildren rest d'
      end
  end.

End Collect.

(** ** The database and what is streamed into it

    An [Item] is one operand written to a [QDataStream] by [<<]; a database
    value is either the buffer of such a stream or a raw [std::string]. *)

Inductive Item :=
| IBool (b : bool)
| IInt (z : Z)
| IUInt (n : N)
| IBytes (s : string)
| ITime (t : time_t)
| IArgs (a : GccArguments)
| INames (l : list string)
| ISet (s : gset string)
| IHash (h : gmap Path time_t).

Inductive DBValue :=
| Stream (items : list Item)
| Raw (s : string).

Abbreviation DB := (gmap string DBValue).
Abbreviation Dict := (gmap string (gset string)).

(** [operator<<] for [CursorKey], [CollectData::Data] and
    [CollectData::DataEntry]. *)
Definition putCursorKey (key : CursorKey) : list Item :=
  [IInt (kind key); IBytes (fileName key); IBytes (symbolName key);
   IUInt (line key); IUInt (col key); IUInt (off key); IBool (def key)].

Definition putData (d : Data.Data) : list Item :=
  putCursorKey (Data.cursor d) ++ [INames (Data.parentNames d)].

Definition putDataEntry (entry : DataEntry) : list Item :=
  [IBool (hasDefinition entry)] ++ putData (cursor entry)
    ++ [ISet (references entry); ISet (references entry)].

Definition makeRefValue (entry : DataEntry) : DBValue :=
  Stream [IBytes (cursorKeyToString (Data.cursor (reference entry)));
          ISet (references entry)].

Definition writeEntry (db : DB) (entry : DataEntry) : DB :=
  let key := Data.cursor (cursor entry) in
  if negb (isValid key) then db
  else <[cursorKeyToString key := makeRefValue entry]> db.

Definition writeDependencies (db : DB) (path : Path) (args : GccArguments)
    (lastMod : time_t) (deps : gmap Path time_t) : DB :=
  <["f:" ++ path := Stream [IArgs args; ITime lastMod; IHash deps]]> db.

(** The value written by [writeDict] for one name: every location followed
    by a NUL byte, in the iteration order of the set. *)
Definition locs (set : gset string) : string :=
  foldr (fun l acc => l ++ String "000"%char acc) "" (elements set).

Definition writeDict (db : DB) (dict : Dict) : DB :=
  map_fold (fun name set db => <["d:" ++ name := Raw (locs set)]> db) db dict.

(** [dict[name].insert(location)]. *)
Definition dictInsert (name location : string) (dict : Dict) : Dict :=
  <[name := {[location]} ∪ default ∅ (dict !! name)]> dict.

Definition isRefOrExpr (k : CXCursorKind) : bool :=
  ((CXCursor_FirstRef <=? k) && (k <=? CXCursor_LastRef))
  || ((CXCursor_FirstExpr <=? k) && (k <=? CXCursor_LastExpr)).

Definition hasQualifiedNames (k : CXCursorKind) : bool :=
  (k =? CXCursor_Namespace) || (k =? CXCursor_ClassDecl)
  || (k =? CXCursor_StructDecl) || (k =? CXCursor_FieldDecl)
  || (k =? CXCursor_CXXMethod) || (k =? CXCursor_Constructor)
  || (k =? CXCursor_Destructor).

(** The [foreach] over the parent names at the end of [collectDict]. *)
Fixpoint qualify (parents : list string) (name : string) (colon : Z)
    (location : string) (dict : Dict) : Dict :=
  match parents with
  | [] => dict
  | cur :: rest =>
      let old := qsize name in
      let name := cur ++ "::" ++ name in
      if negb (colon =? -1) then
        let colon := colon + (qsize name - old) in
        let dict := dictInsert (left colon name) location dict in
        qualify rest name colon location (dictInsert name location dict)
      else qualify rest name colon location (dictInsert name location dict)
  end.

(** One turn of the loop of [collectDict], for one of the two sides of an
    entry. *)
Definition collectDictSide (d : Data.Data) (dict : Dict) : Dict :=
  let key := Data.cursor d in
  if negb (isValid key) then dict
  else if isRefOrExpr (kind key) then dict
  else
    let name := symbolName key in
    let location := cursorKeyToString key in
    let dict := dictInsert name location dict in
    let colon := indexOf "("%char name in
    let dict := if negb (colon =? -1)
                then dictInsert (left colon name) location dict else dict in
    if hasQualifiedNames (kind key)
    then qualify (Data.parentNames d) name colon location dict
    else dict.

Definition collectDict (entry : DataEntry) (dict : Dict) : Dict :=
  collectDictSide (reference entry) (collectDictSide (cursor entry) dict).

(** The locations recorded for a name, none when the name is not a key. *)
Definition dictValue (dict : Dict) (name : string) : gset string :=
  default ∅ (dict !! name).

(** ** Stores

    The cursor keys of the entries of a store, in the order of the
    entries. *)
Definition cursorKeys (d : CollectData) : list CursorKey :=
  (fun e => Data.cursor (cursor e)) <$> data d.

(** The cursor key of an entry is either the null key, or a valid key whose
    location leads back to the entry. *)
Definition keysRegistered (sn : gmap string EntryPtr) (ks : list CursorKey) : Prop :=
  forall p k, ks !! p = Some k ->
    (isValid k = true /\ sn !! locationKey k = Some p) \/ k = nullKey.

(** The store as the visitor leaves it: nothing is registered at the
    location of the null key; an entry whose cursor key is the null key has
    the null key as its reference too; no entry has back-references yet. *)
Definition wellFormed (d : CollectData) : Prop :=
  seen d !! locationKey nullKey = None
  /\ keysRegistered (seen d) (cursorKeys d)
  /\ forall p e, data d !! p = Some e ->
       references e = ∅
       /\ (Data.cursor (cursor e) = nullKey -> Data.cursor (reference e) = nullKey).

(** Line and column are coordinates of the position that the offset gives:
    valid cursor keys of the store with the same location string have the
    same location key. *)
Definition coherent (ks : list CursorKey) : Prop :=
  forall p q k1 k2, ks !! p = Some k1 -> ks !! q = Some k2 ->
    isValid k1 = true -> isValid k2 = true ->
    cursorKeyToString k1 = cursorKeyToString k2 ->
    locationKey k1 = locationKey k2.

(** An entry during the pass: if its cursor key is the null key, its
    reference leads to no entry or to one with a valid cursor key; and its
    own location string is not among its back-references. *)
Definition passEntry (sn : gmap string EntryPtr) (ks : list CursorKey)
    (e : DataEntry) : Prop :=
  (Data.cursor (cursor e) = nullKey ->
   forall q, sn !! locationKey (Data.cursor (reference e)) = Some q ->
             exists k, ks !! q = Some k /\ isValid k = true)
  /\ cursorKeyToString (Data.cursor (cursor e)) ∉ references e.

Definition passStore (sn : gmap string EntryPtr) (ks : list CursorKey)
    (d : CollectData) : Prop :=
  seen d = sn /\ cursorKeys d = ks
  /\ forall p e, data d !! p = Some e -> passEntry sn ks e.

(** ** The back-reference pass of [RBuild::writeData] *)

Definition isMethodKind (k : CXCursorKind) : bool :=
  (k =? CXCursor_CXXMethod) || (k =? CXCursor_Constructor)
  || (k =? CXCursor_Destructor).

(** One turn of the first loop of [writeData], for the entry at [p]. *)
Definition propagate (p : EntryPtr) (d : CollectData) : Result CollectData :=
  match data d !! p with
  | None => Abort
  | Some entry =>
      let key := Data.cursor (cursor entry) in
      let ref := Data.cursor (reference entry) in
      if isMethodKind (kind key) then
        if key_ne key ref && negb (isDefinition key) then
          match seen d !! locationKey ref with
          | Some q =>
              Q_ASSERT (negb (q =? p)%nat) ;;
              match data d !! q with
              | Some target =>
                  Ok (setEntry q (mkDataEntry (hasDefinition target) (cursor target)
                                    (cursor entry) (references target)) d)
              | None => Abort
              end
          | None => Abort
          end
        else Ok d
      else
        match seen d !! locationKey (Data.cursor (reference entry)) with
        | Some r =>
            if (r =? p)%nat then Ok d
            else
              match data d !! r with
              | Some target =>
                  Ok (setEntry r (mkDataEntry (hasDefinition target) (cursor target)
                                    (reference target)
                                    ({[cursorKeyToString (Data.cursor (cursor entry))]}
                                       ∪ references target)) d)
              | None => Abort
              end
        | None => Ok d
        end
  end.

Fixpoint propagateAll (ps : list EntryPtr) (d : CollectData) : Result CollectData :=
  match ps with
  | [] => Ok d
  | p :: rest => d' ← propagate p d; propagateAll rest d'
  end.

(** The first loop: every entry of [mData->data], in order. *)
Definition backReferences (d : CollectData) : Result CollectData :=
  propagateAll (seq 0 (length (data d))) d.

(** The second loop: the symbol records, the dictionary and the manifest
    stream. *)
Definition writeEntries (entries : list DataEntry) (db : DB)
    : DB * Dict * list Item :=
  foldl (fun '(db, dict, ds) entry =>
           (writeEntry db entry, collectDict entry dict, (ds ++ putDataEntry entry)%list))
        (db, ∅, [IInt (Z.of_nat (length entries))]) entries.

(** [RBuild::writeData]; [opened] is the database [leveldb::DB::Open] gives
    after the old directory has been removed, [None] when that fails. *)
Definition writeData (opened : option DB) (d : CollectData)
    : Result (CollectData * option DB) :=
  match opened with
  | None => Ok (d, None)
  | Some db =>
      d' ← backReferences d;
      let '(db, dict, entries) := writeEntries (data d') db in
      let db := writeDict db dict in
      let db := foldl (fun db dep =>
                         writeDependencies db (file dep) (arguments dep)
                           (dep_lastModified dep) (dep_dependencies dep))
                      db (dependencies d') in
      Ok (d', Some (<[" " := Stream entries]> db))
  end.

(** ** Dependencies: the inclusion walker and [RBuild::compile] *)

Section Dependencies.
Context `{FE : FrontEnd} `{FS : FileSystem}.

(** [includedFile] is the name of the included file and [inclusionStack]
    the names of the files of the stack's spelling locations, the directly
    including file first. *)
Definition getInclusions (includedFile : string) (inclusionStack : list string)
    (deps : Dependencies) : Dependencies :=
  let includeLen := Z.of_nat (length inclusionStack) in
  if negb (includeLen =? 0) then
    let p := resolved includedFile in
    let recorded := <[p := lastModified p]> (dep_dependencies deps) in
    let recorded :=
      foldl (fun (h : gmap Path time_t) f =>
               let p := resolved f in <[p := lastModified p]> h)
            recorded (take (Z.to_nat (includeLen - 1)) inclusionStack) in
    mkDependencies (file deps) (arguments deps) (dep_lastModified deps) recorded
  else deps.

(** What [clang_parseTranslationUnit] gives for one input: the children of
    the translation unit's cursor, and the calls [clang_getInclusions] makes
    to its visitor. *)
Record TranslationUnit := mkTranslationUnit {
  unitChildren : list AST;
  unitInclusions : list (string * list string)
}.

(** [clang_getInclusions(unit, getInclusions, deps)]. *)
Definition clang_getInclusions (unit : TranslationUnit) (deps : Dependencies)
    : Dependencies :=
  foldl (fun deps '(included, stack) => getInclusions included stack deps)
        deps (unitInclusions unit).

(** The body of the loop of [RBuild::compile] for the input [input]. *)
Definition compileInput (args : GccArguments) (input : Path)
    (parsed : option TranslationUnit) (d : CollectData) : Result CollectData :=
  match parsed with
  | None => Ok d
  | Some unit =>
      r ← visitChildren (unitChildren unit) d;
      let d := snd r in
      let deps := mkDependencies input args (lastModified input) ∅ in
      Ok (mkCollectData (seen d) (data d)
            (dependencies d ++ [clang_getInclusions unit deps]))
  end.

(** [RBuild::compile]: [inputs] pairs every file of [arguments.input()]
    with what the front end parses it to. *)
Fixpoint compile (args : GccArguments)
    (inputs : list (Path * option TranslationUnit)) (d : CollectData)
    : Result CollectData :=
  match inputs with
  | [] => Ok d
  | (input, parsed) :: rest =>
      d' ← compileInput args input parsed d; compile args rest d'
  end.

(** [RBuild::makefileFileReady], for every item of the makefile in turn:
    an indexing pass. *)
Fixpoint build (items : list (GccArguments * list (Path * option TranslationUnit)))
    (d : CollectData) : Result CollectData :=
  match items with
  | [] => Ok d
  | (args, inputs) :: rest => d' ← compile args inputs d; build rest d'
  end.

(** ** The staleness scan of [RBuild::updateDB] *)

(** The iterator of the database: its records in byte order of the keys. *)
Definition keyOrder (a b : string * DBValue) : Prop := strcmp (fst a) (fst b) <= 0.

#[global] Instance keyOrder_dec a b : Decision (keyOrder a b).
Proof. unfold keyOrder. apply _. Defined.

Definition records (db : DB) : list (string * DBValue) :=
  merge_sort keyOrder (map_to_list db).

(** [it->Seek(target)]: the records from the first key that is not below
    [target]. *)
Fixpoint Seek (target : string) (it : list (string * DBValue)) : list (string * DBValue) :=
  match it with
  | [] => []
  | (key, value) :: rest =>
      if strcmp key target <? 0 then Seek target rest else it
  end.

Fixpoint drop_string (n : nat) (s : string) : string :=
  match n, s with
  | O, _ => s
  | S _, EmptyString => EmptyString
  | S n', String _ s' => drop_string n' s'
  end.

(** [ds >> args >> lastModified >> dependencies].  A buffer that
    [writeDependencies] did not write gives nothing to read: the three
    variables are modelled as staying empty. *)
Definition readDependencies (value : DBValue) : GccArguments * time_t * gmap Path time_t :=
  match value with
  | Stream (IArgs args :: ITime lastMod :: IHash deps :: _) => (args, lastMod, deps)
  | _ => ([], 0, ∅)
  end.

(** The loop over the included files of one record. *)
Definition scanDependencies (deps : gmap Path time_t) (dirty : gmap Path GccArguments)
    : gmap Path GccArguments :=
  map_fold (fun (p : Path) (t : time_t) (dirty : gmap Path GccArguments) =>
              if negb (bool_decide (is_Some (dirty !! p)))
                 && negb (lastModified p =? t)
              then <[p := []]> dirty else dirty)
           dirty deps.

(** The body of the loop of [updateDB] for one record: the record read, and
    what it makes of the local variable [dirty]. *)
Definition readRecord (key : string) (value : DBValue) : Dependencies :=
  let '(args, lastMod, deps) := readDependencies value in
  mkDependencies (drop_string 2 key) args lastMod deps.

Definition scanRecord (dirty : gmap Path GccArguments) (dep : Dependencies)
    : gmap Path GccArguments :=
  let dirty := if negb (dep_lastModified dep =? lastModified (file dep))
               then <[file dep := arguments dep]> dirty else dirty in
  scanDependencies (dep_dependencies dep) dirty.

(** The loop over the records from the iterator's position, until a key
    that does not start with "f:"; it gives the local variable [dirty] and
    the list [mData->dependencies]. *)
Fixpoint scan (it : list (string * DBValue)) (dirty : gmap Path GccArguments)
    (known : list Dependencies) : gmap Path GccArguments * list Dependencies :=
  match it with
  | [] => (dirty, known)
  | (key, value) :: rest =>
      if negb (String.prefix "f:" key) then (dirty, known)
      else
        let dep := readRecord key value in
        scan rest (scanRecord dirty dep) (known ++ [dep])
  end.

(** The records that the loop of [scan] goes through. *)
Fixpoint visited (it : list (string * DBValue)) : list (string * DBValue) :=
  match it with
  | [] => []
  | (key, value) :: rest =>
      if negb (String.prefix "f:" key) then [] else (key, value) :: visited rest
  end.

(** The dirty set at the end of the first loop of [updateDB]. *)
Definition dirtyFiles (db : DB) : gmap Path GccArguments :=
  fst (scan (Seek "f:" (records db)) ∅ []).

(** [ds >> count] on the manifest. *)
Definition readCount (value : DBValue) : Z :=
  match value with
  | Stream (IInt count :: _) => count
  | _ => 0
  end.

(** [RBuild::updateDB]; [opened] is the database if it could be opened. *)
Definition updateDB (opened : option DB) (d : CollectData) : bool * CollectData :=
  match opened with
  | None => (false, d)
  | Some db =>
      let '(dirty, known) := scan (Seek "f:" (records db)) ∅ (dependencies d) in
      match db !! " " with
      | None => (false, mkCollectData (seen d) (data d) known)
      | Some value =>
          let count := readCount value in
          (true, mkCollectData (seen d)
                   (data d ++ replicate (Z.to_nat count) newDataEntry) known)
      end
  end.

(** The records read by the scan, in the order of the scan. *)
Definition scanned (db : DB) : list Dependencies :=
  map (fun kv => readRecord (fst kv) (snd kv)) (visited (Seek "f:" (records db))).

(** A record of the list is for this file, with these arguments and a time
    that differs from the one on disk. *)
Definition changedIn (deps : list Dependencies) (p : Path) (a : GccArguments) : Prop :=
  exists dep, In dep deps /\ file dep = p /\ arguments dep = a
              /\ dep_lastModified dep <> lastModified p.

(** A record of the list has this file as included, with a time that
    differs from the one on disk. *)
Definition includedIn (deps : list Dependencies) (p : Path) : Prop :=
  exists dep t, In dep deps /\ dep_dependencies dep !! p = Some t
                /\ lastModified p <> t.

(** The record persisted for a path, as the scan reads it. *)
Definition recordOf (db : DB) (path : Path) : option Dependencies :=
  readRecord ("f:" ++ path) <$> db !! ("f:" ++ path).

(** The file has a record, and its time on disk differs from the record's. *)
Definition ownTimeChanged (db : DB) (path : Path) : Prop :=
  exists dep, recordOf db path = Some dep
              /\ dep_lastModified dep <> lastModified path.

(** Some record lists the file as included, with a time that differs from
    its time on disk. *)
Definition includedTimeChanged (db : DB) (path : Path) : Prop :=
  exists owner dep t,
    recordOf db owner = Some dep
    /\ dep_dependencies dep !! path = Some t
    /\ lastModified path <> t.

End Dependencies.

(** ** The hash of a key ([qHash])

    The hash reads the bytes of the strings as [char] and the two bytes of
    the kind and of the offset, cut to 16 bits, in the order of memory:
    whether [char] is signed and which byte comes first is the platform's
    choice. *)
Class Platform := {
  charIsSigned : bool;
  littleEndian : bool
}.

Section Hash.
Context `{PF : Platform}.

(** The value of a byte read through a [char]. *)
Definition charOfByte (n : Z) : Z :=
  if charIsSigned && (128 <=? n) then n - 256 else n.

(** The macro [HASHCHAR], on the 32-bit unsigned [h]. *)
Definition HASHCHAR (h ch : Z) : Z :=
  let h := (Z.shiftl h 4 + ch) mod 2 ^ 32 in
  let h := Z.lxor h (Z.shiftr (Z.land h 4026531840) 23) in
  let h := Z.land h 268435455 in
  (h + 1) mod 2 ^ 32.

(** The [while] loop over the bytes of a string, up to the first NUL byte. *)
Fixpoint hashString (s : string) (h : Z) : Z :=
  match s with
  | EmptyString => h
  | String c s' =>
      let n := Z.of_N (N_of_ascii c) in
      if n =? 0 then h else hashString s' (HASHCHAR h (charOfByte n))
  end.

(** The two bytes of a [uint16_t] in the order of memory. *)
Definition bytesOfUint16 (v : Z) : list Z :=
  let u := v mod 2 ^ 16 in
  if littleEndian then [u mod 256; u / 256] else [u / 256; u mod 256].

Definition qHash (key : CursorKey) : Z :=
  if negb (isNull key) then
    let h := hashString (fileName key) 0 in
    let h := hashString (symbolName key) h in
    foldl (fun h b => HASHCHAR h (charOfByte b)) h
          (bytesOfUint16 (kind key) ++ bytesOfUint16 (Z.of_N (off key)))
  else 0.

End Hash.

(** No byte of the string is a colon. *)
Fixpoint colonFree (s : string) : Prop :=
  match s with
  | EmptyString => True
  | String c s' => c <> ":"%char /\ colonFree s'
  end.

(** ** Front ends given by a table

    A front end whose cursors are the rows of a table: cursor [0] is the
    null cursor and cursor [S i] is row [i].  A row names its definition,
    its referenced cursor and its semantic ancestors by their numbers. *)

Record CursorRow := mkRow {
  row_kind : CXCursorKind;
  row_file : string;
  row_name : string;
  row_line : N;
  row_col : N;
  row_off : N;
  row_isDefinition : bool;
  row_definition : nat;
  row_referenced : nat;
  row_ancestors : list nat;
  row_included : string
}.

Definition nullRow : CursorRow :=
  mkRow CXCursor_FirstInvalid "" "" 0 0 0 false 0 0 [] "".

Definition rowOf (rows : list CursorRow) (c : nat) : CursorRow :=
  match c with
  | O => nullRow
  | S i => default nullRow (rows !! i)
  end.

Definition tableFrontEnd (rows : list CursorRow) : FrontEnd := {|
  CXCursor := nat;
  clang_getNullCursor := O;
  clang_getCursorKind c := row_kind (rowOf rows c);
  clang_getFileName c := row_file (rowOf rows c);
  cursorLine c := row_line (rowOf rows c);
  cursorColumn c := row_col (rowOf rows c);
  cursorOffset c := row_off (rowOf rows c);
  clang_getCursorDisplayName c := row_name (rowOf rows c);
  clang_isCursorDefinition c := row_isDefinition (rowOf rows c);
  clang_getCursorDefinition c := row_definition (rowOf rows c);
  clang_getCursorReferenced c := row_referenced (rowOf rows c);
  semanticAncestors c := row_ancestors (rowOf rows c);
  clang_getIncludedFileName c := row_included (rowOf rows c)
|}.

(** A file system in which every path is already resolved and the
    modification times are those of a table ([0] for a file not in it). *)
Definition tableFileSystem (times : list (Path * time_t)) : FileSystem := {|
  resolved p := p;
  lastModified p := default 0 ((list_to_map times : gmap Path time_t) !! p)
|}.

(** ** Example inputs *)

(** Two keys for [f()] in one file, at different offsets. *)
Definition keyDeclaration : CursorKey :=
  mkCursorKey 8 "/src/a.cpp" "f()" 1 6 5 false.
Definition keyDefinition : CursorKey :=
  mkCursorKey 8 "/src/a.cpp" "f()" 3 6 25 true.

(** [int x = 0;]: a variable declaration that the front end reports as a
    definition. *)
Definition variableRows : list CursorRow :=
  [mkRow CXCursor_VarDecl "/src/a.cpp" "x" 1 5 4 true 1 1 [] ""].
Definition variableFE : FrontEnd := tableFrontEnd variableRows.

(** Every path resolved, no modification time known. *)
Definition plainFS : FileSystem := tableFileSystem [].


(** The same location seen first as a declaration without a definition
    (cursor 1) and then as a declaration whose definition is in a.cpp
    (cursor 2; cursor 3 is the definition). *)
Definition upgradeRows : list CursorRow :=
  [mkRow 8 "/src/a.h" "f()" 1 6 5 false 0 1 [] "";
   mkRow 8 "/src/a.h" "f()" 1 6 5 false 3 3 [] "";
   mkRow 8 "/src/a.cpp" "f()" 3 6 25 true 3 3 [] ""].
Definition upgradeFE : FrontEnd := tableFrontEnd upgradeRows.

(** The store after the declaration of [upgradeRows] whose definition is in
    a.cpp (cursor 2) has been visited. *)
Definition storeWithDefinition : CollectData :=
  match collectSymbols (FE := upgradeFE)
          (FS := plainFS) 2%nat emptyCollectData with
  | Ok r => snd r
  | Abort => emptyCollectData
  end.

(** A class [Foo] in foo.h declares the method [bar(int)] (cursor 1), defined
    in foo.cpp (cursor 2); cursor 3 is the class.  Only the header is part
    of the build. *)
Definition methodRows : list CursorRow :=
  [mkRow CXCursor_CXXMethod "/src/foo.h" "bar(int)" 3 8 30 false 2 1 [3%nat] "";
   mkRow CXCursor_CXXMethod "/src/foo.cpp" "bar(int)" 5 11 52 true 2 2 [3%nat] "";
   mkRow CXCursor_ClassDecl "/src/foo.h" "Foo" 1 7 6 true 3 3 [] ""].
Definition methodFE : FrontEnd := tableFrontEnd methodRows.

(** The store after the class and the method declaration of [methodRows]
    have been visited. *)
Definition methodStore : CollectData :=
  match visitChildren (FE := methodFE) (FS := plainFS)
          [Node (3%nat : @CXCursor methodFE) [Node (1%nat : @CXCursor methodFE) []]]
          emptyCollectData with
  | Ok r => snd r
  | Abort => emptyCollectData
  end.

(** [#define FOO 1] in a header: the front end has neither a definition
    cursor nor a referenced cursor for a macro definition. *)
Definition macroRows : list CursorRow :=
  [mkRow CXCursor_MacroDefinition "/src/a.h" "FOO" 1 9 8 false 0 0 [] ""].
Definition macroFE : FrontEnd := tableFrontEnd macroRows.

(** The store after the macro definition has been visited. *)
Definition macroStore : CollectData :=
  match collectSymbols (FE := macroFE) (FS := plainFS) 1%nat emptyCollectData with
  | Ok r => snd r
  | Abort => emptyCollectData
  end.

(** The entry of the method declaration in [methodStore]. *)
Definition methodEntry : DataEntry :=
  default newDataEntry (data methodStore !! 1%nat).

(** A translation unit a.cpp that includes itself (behind a guard): the
    front end first reports the main file, with an empty stack, and then
    a.cpp as included from a.cpp. *)
Definition selfIncluding : @TranslationUnit macroFE :=
  mkTranslationUnit []
    [("/src/a.cpp", []); ("/src/a.cpp", ["/src/a.cpp"])].

(** A database with the record of a.cpp, which includes a.h, both last
    seen at time 100; on disk a.cpp is unchanged and a.h is newer. *)
Definition headerDB : DB :=
  writeDependencies ∅ "/src/a.cpp" ["-I."] 100 {["/src/a.h" := 100]}.
Definition headerChangedFS : FileSystem :=
  tableFileSystem [("/src/a.cpp", 100); ("/src/a.h", 200)].

(** The build of a.cpp with [upgradeRows]: the translation unit shows the
    declaration of [f()] in a.h (cursor 2) and then its definition in a.cpp
    (cursor 3). *)
Definition headerAndSource
    : list (GccArguments * list (Path * option (@TranslationUnit upgradeFE))) :=
  [([], [("/src/a.cpp",
          Some (mkTranslationUnit
                  [Node (2%nat : @CXCursor upgradeFE) [];
                   Node (3%nat : @CXCursor upgradeFE) []] []))])].

Definition indexedStore : CollectData :=
  match build (FE := upgradeFE) (FS := plainFS) headerAndSource emptyCollectData with
  | Ok d => d
  | Abort => emptyCollectData
  end.

(** A use of [f()] further down in a.cpp. *)
Definition keyUse : CursorKey :=
  mkCursorKey CXCursor_CallExpr "/src/a.cpp" "f()" 5 3 40 false.

(** A platform with signed [char] and the low byte first. *)
Definition signedLittleEndian : Platform :=
  {| charIsSigned := true; littleEndian := true |}.

(** The key of the declaration of [f()] with other display coordinates. *)
Definition keyDeclarationMoved : CursorKey :=
  mkCursorKey 8 "/src/a.cpp" "f()" 9 9 5 true.

(** ** Invariants of the store *)

(** Every registered location leads to an entry of the store, no two
    locations lead to the same entry, and every entry is registered. *)
Definition registry (d : CollectData) : Prop :=
  (forall lk p, seen d !! lk = Some p -> (p < length (data d))%nat)
  /\ (forall lk1 lk2 p, seen d !! lk1 = Some p -> seen d !! lk2 = Some p -> lk1 = lk2)
  /\ (forall p, (p < length (data d))%nat -> exists lk, seen d !! lk = Some p).

(** The keys of an entry: the reference key is the null key or valid, and
    an entry that has a definition has a valid cursor key. *)
Definition entryShape (e : DataEntry) : Prop :=
  (Data.cursor (reference e) = nullKey \/ isValid (Data.cursor (reference e)) = true)
  /\ (hasDefinition e = true -> isValid (Data.cursor (cursor e)) = true).

(** [#include "missing.h"] in a.cpp, for a file that the front end could
    not find: it has no name for the included file. *)
Definition missingIncludeRows : list CursorRow :=
  [mkRow CXCursor_InclusionDirective "/src/a.cpp" "missing.h" 1 1 0 false 0 0 [] EmptyString].
Definition missingIncludeFE : FrontEnd := tableFrontEnd missingIncludeRows.

(** The build of a.cpp with [macroRows]: the translation unit shows the
    macro definition. *)
Definition macroBuild
    : list (GccArguments * list (Path * option (@TranslationUnit macroFE))) :=
  [([], [("/src/a.cpp",
          Some (mkTranslationUnit [Node (1%nat : @CXCursor macroFE) []] []))])].

Definition macroIndexed : CollectData :=
  match build (FE := macroFE) (FS := plainFS) macroBuild emptyCollectData with
  | Ok d => d
  | Abort => emptyCollectData
  end.

(** ** The names of a dictionary side

    A name qualified by the container names, the innermost first: one
    variant for every container, each inside the next. *)
Fixpoint qualifiedNames (parents : list string) (name : string) : list string :=
  match parents with
  | [] => []
  | cur :: rest => (cur ++ "::" ++ name) :: qualifiedNames rest (cur ++ "::" ++ name)
  end.

(** A side of an entry that goes into the dictionary: its key is valid and
    its kind is neither a reference nor an expression. *)
Definition inDictionary (d : Data.Data) : bool :=
  isValid (Data.cursor d) && negb (isRefOrExpr (kind (Data.cursor d))).

(** The names under which a side goes into the dictionary: its symbol name
    and, when that has a parameter list, the name before it; each of them
    also qualified when the kind has containers. *)
Definition dictNames (d : Data.Data) : list string :=
  let name := symbolName (Data.cursor d) in
  let variants n :=
    n :: (if hasQualifiedNames (kind (Data.cursor d))
          then qualifiedNames (Data.parentNames d) n else []) in
  let colon := indexOf "("%char name in
  (variants name ++ (if colon =? -1 then [] else variants (left colon name)))%list.

(** ** What [writeData] writes

    The database after the writes of [writeData], for the store that the
    back-reference pass has left: the symbol records, the dictionary
    records, the dependency records and the manifest, in this order. *)
Definition dictionaryOf (entries : list DataEntry) : Dict :=
  foldl (fun dict entry => collectDict entry dict) ∅ entries.

Definition dependencyValue (dep : Dependencies) : DBValue :=
  Stream [IArgs (arguments dep); ITime (dep_lastModified dep);
          IHash (dep_dependencies dep)].

Definition manifestOf (entries : list DataEntry) : DBValue :=
  Stream (IInt (Z.of_nat (length entries)) :: concat (map putDataEntry entries)).

Definition written (db : DB) (d : CollectData) : DB :=
  <[" " := manifestOf (data d)]>
    (foldl (fun db dep =>
              writeDependencies db (file dep) (arguments dep)
                (dep_lastModified dep) (dep_dependencies dep))
       (writeDict (foldl writeEntry db (data d)) (dictionaryOf (data d)))
       (dependencies d)).

(** The times of a dependency record are those of the files on disk. *)
Definition timesCurrent `{FS : FileSystem} (dep : Dependencies) : Prop :=
  dep_lastModified dep = lastModified (file dep)
  /\ forall p t, dep_dependencies dep !! p = Some t -> t = lastModified p.

(** The store of [headerAndSource] after the back-reference pass, and the
    database written for it. *)
Definition indexedFinal : CollectData :=
  match writeData (Some ∅) indexedStore with
  | Ok r => fst r
  | Abort => emptyCollectData
  end.

Definition indexedDB : DB :=
  match writeData (Some ∅) indexedStore with
  | Ok r => default ∅ (snd r)
  | Abort => ∅
  end.

(** The entry of the definition of [f()] in [indexedFinal], and the
    dependency record of a.cpp. *)
Definition definitionEntry : DataEntry :=
  default newDataEntry (data indexedFinal !! 1%nat).

Definition sourceRecord : Dependencies :=
  mkDependencies "/src/a.cpp" [] 0 ∅.

(** The build of two inputs with [macroRows], on the disk of
    [headerChangedFS]: the front end cannot parse gone.cpp; a.cpp includes
    a.h, which has the macro definition. *)
Definition includingInputs : list (Path * option (@TranslationUnit macroFE)) :=
  [("/src/gone.cpp", None);
   ("/src/a.cpp",
    Some (mkTranslationUnit [Node (1%nat : @CXCursor macroFE) []]
            [("/src/a.cpp", []); ("/src/a.h", ["/src/a.cpp"])]))].

Definition includingBuild
    : list (GccArguments * list (Path * option (@TranslationUnit macroFE))) :=
  [(["-I."], includingInputs)].

Definition includingStore : CollectData :=
  match build (FE := macroFE) (FS := headerChangedFS) includingBuild emptyCollectData with
  | Ok d => d
  | Abort => emptyCollectData
  end.

Definition includingFinal : CollectData :=
  match writeData (Some ∅) includingStore with
  | Ok r => fst r
  | Abort => emptyCollectData
  end.

Definition includingDB : DB :=
  match writeData (Some ∅) includingStore with
  | Ok r => default ∅ (snd r)
  | Abort => ∅
  end.

(** The dependency record of a.cpp in [includingStore]. *)
Definition includingRecord : Dependencies :=
  mkDependencies "/src/a.cpp" ["-I."] 100 {["/src/a.h" := 200]}.

(** The names that the loop of [addCursor] appends: those of the struct,
    class and namespace cursors among the semantic parents, the innermost
    first, up to the first parent whose key is not valid. *)
Fixpoint scopeNames `{FE : FrontEnd} `{FS : FileSystem} (parents : list CXCursor)
    : list string :=
  match parents with
  | [] => []
  | parent :: rest =>
      let parentKey := CursorKey_of parent in
      if negb (isValid parentKey) then []
      else if isContainer (kind parentKey)
           then symbolName parentKey :: scopeNames rest
           else scopeNames rest
  end.

(** The build of foo.cpp with [methodRows]: the translation unit shows the
    class with the declaration of the method, and then the definition of
    the method. *)
Definition methodBuild
    : list (GccArguments * list (Path * option (@TranslationUnit methodFE))) :=
  [([], [("/src/foo.cpp",
          Some (mkTranslationUnit
                  [Node (3%nat : @CXCursor methodFE) [Node (1%nat : @CXCursor methodFE) []];
                   Node (2%nat : @CXCursor methodFE) []] []))])].

Definition methodIndexed : CollectData :=
  match build (FE := methodFE) (FS := plainFS) methodBuild emptyCollectData with
  | Ok d => d
  | Abort => emptyCollectData
  end.

(** [methodIndexed] after the back-reference pass. *)
Definition methodFinal : CollectData :=
  match backReferences methodIndexed with
  | Ok d => d
  | Abort => emptyCollectData
  end.


(** * Properties *)

(** ** Order and equality of cursor keys *)

Lemma strcmp_opp (a b : string) : strcmp b a = - strcmp a b.
Proof.
  revert b; induction a as [|x a IH]; intros [|y b]; simpl; try reflexivity.
  destruct (N.ltb_spec (N_of_ascii x) (N_of_ascii y)),
           (N.ltb_spec (N_of_ascii y) (N_of_ascii x)); try lia; auto.
Qed.

Lemma isValid_fields (k : CursorKey) :
  isValid k = true <-> fileName k <> "" /\ symbolName k <> "".
Proof.
  unfold isValid. rewrite andb_true_iff, !negb_true_iff.
  destruct (fileName k), (symbolName k); simpl; intuition congruence.
Qed.

Lemma key_lt_asym (a b : CursorKey) :
  isValid a = true -> isValid b = true ->
  key_lt a b = true -> key_lt b a = true -> False.
Proof.
  intros Ha Hb. unfold key_lt. rewrite Ha, Hb. simpl.
  rewrite (strcmp_opp (fileName a) (fileName b)).
  rewrite (strcmp_opp (symbolName a) (symbolName b)).
  repeat match goal with
         | |- context [Z.ltb ?x ?y] => destruct (Z.ltb_spec x y)
         | |- context [Z.gtb ?x ?y] => rewrite (Z.gtb_ltb x y)
         | |- context [N.ltb ?x ?y] => destruct (N.ltb_spec x y)
         end; try discriminate; try lia.
Qed.

Lemma key_eq_valid (a b : CursorKey) :
  isValid a = true ->
  key_eq a b = true <->
  fileName a = fileName b /\ off a = off b
  /\ symbolName a = symbolName b /\ kind a = kind b.
Proof.
  intros Ha. unfold key_eq, isNull. rewrite Ha. simpl.
  rewrite !andb_true_iff, Z.eqb_eq, N.eqb_eq, !String.eqb_eq. tauto.
Qed.

(** C3. For valid keys [a] and [b], [a < b] and [b < a] never both hold;
    [a == b] holds exactly when file name, offset, symbol name and kind all
    match; and replacing the line, the column (or the definition flag) of
    either key never changes the outcome of [==]. *)
Theorem CursorKey_order_and_equality (a b : CursorKey) :
  isValid a = true -> isValid b = true ->
  ~ (key_lt a b = true /\ key_lt b a = true)
  /\ (key_eq a b = true <->
      fileName a = fileName b /\ off a = off b
      /\ symbolName a = symbolName b /\ kind a = kind b)
  /\ (forall la ca da lb cb db,
        key_eq (mkCursorKey (kind a) (fileName a) (symbolName a) la ca (off a) da)
               (mkCursorKey (kind b) (fileName b) (symbolName b) lb cb (off b) db)
        = key_eq a b).
Proof.
  intros Ha Hb. split; [|split].
  - intros [H1 H2]. exact (key_lt_asym a b Ha Hb H1 H2).
  - apply key_eq_valid, Ha.
  - intros. reflexivity.
Qed.

(** The theorem at two keys of one file that differ in their offsets. *)
Lemma CursorKey_order_and_equality_witness :
  ~ (key_lt keyDeclaration keyDefinition = true
     /\ key_lt keyDefinition keyDeclaration = true)
  /\ (key_eq keyDeclaration keyDefinition = true <->
      fileName keyDeclaration = fileName keyDefinition
      /\ off keyDeclaration = off keyDefinition
      /\ symbolName keyDeclaration = symbolName keyDefinition
      /\ kind keyDeclaration = kind keyDefinition).
Proof.
  destruct (CursorKey_order_and_equality keyDeclaration keyDefinition)
    as (H1 & H2 & _); [reflexivity | reflexivity |].
  exact (conj H1 H2).
Defined.

(** ** The definition flag of a key *)

(** C5, as the code has it.  The key built from a cursor has its definition
    flag set exactly when the cursor's kind is a macro definition or the
    front end reports the cursor as a definition, whatever the kind, a
    variable declaration included; the key of a cursor of an invalid kind
    has the flag clear. *)
Theorem CursorKey_definition_flag `{FE : FrontEnd} `{FS : FileSystem} (c : CXCursor) :
  isDefinition (CursorKey_of c)
  = if clang_isInvalid (clang_getCursorKind c) then false
    else (clang_getCursorKind c =? CXCursor_MacroDefinition)
         || clang_isCursorDefinition c.
Proof.
  unfold isDefinition, CursorKey_of, cursorDefinition.
  destruct (clang_isInvalid (clang_getCursorKind c)); simpl; [reflexivity|].
  destruct (clang_getCursorKind c =? CXCursor_MacroDefinition); reflexivity.
Qed.

(** C5 fails as stated: the key of a variable declaration that the front
    end reports as a definition has its definition flag set. *)
Lemma variable_declaration_is_definition :
  clang_getCursorKind (FrontEnd := variableFE) 1%nat = CXCursor_VarDecl
  /\ isDefinition (CursorKey_of (FE := variableFE) (FS := plainFS) 1%nat) = true.
Proof. split; reflexivity. Qed.

(** ** Visiting a location *)

Section CollectProperties.
Context `{FE : FrontEnd} `{FS : FileSystem}.

Lemma addParents_ok (ps : list CXCursor) (names : list string) :
  exists more, addParents ps names = Ok (names ++ more)%list.
Proof.
  revert names; induction ps as [|p ps IH]; intros names; simpl.
  - exists []. by rewrite app_nil_r.
  - destruct (isValid (CursorKey_of p)) eqn:Hv; simpl.
    + destruct (isContainer (kind (CursorKey_of p))).
      * apply isValid_fields in Hv as [_ Hs].
        destruct (symbolName (CursorKey_of p)) eqn:Hn; [done|]. simpl.
        destruct (IH (names ++ [String a s])%list) as [more ->].
        exists (String a s :: more). by rewrite <- app_assoc.
      * apply IH.
    + exists []. by rewrite app_nil_r.
Qed.

Lemma addCursor_ok (c : CXCursor) (key : CursorKey) (d : Data.Data) :
  isValid key = true ->
  exists more,
    addCursor c key d = Ok (Data.mk key (Data.parentNames d ++ more)%list).
Proof.
  intros Hv. unfold addCursor. rewrite Hv. simpl.
  destruct (addParents_ok (semanticAncestors c) (Data.parentNames d)) as [more ->].
  by exists more.
Qed.

(** C6. When the entry for a cursor's location already has a definition,
    visiting the cursor changes nothing in the store (so neither the
    entry's definition flag, nor its cursor, nor its reference) and the
    traversal goes on into the children. *)
Theorem first_definition_wins (c : CXCursor) (d : CollectData)
    (p : EntryPtr) (entry : DataEntry) :
  seen d !! locationKey (CursorKey_of c) = Some p ->
  data d !! p = Some entry ->
  hasDefinition entry = true ->
  collectSymbols c d = Ok (CXChildVisit_Recurse, d).
Proof.
  intros Hseen Hp Hdef. unfold collectSymbols.
  destruct (negb (isValid (CursorKey_of c))); [reflexivity|].
  by rewrite Hseen, Hp, Hdef.
Qed.



End CollectProperties.

(** The header declaration of [f()], visited once the entry of its location
    has a definition. *)
Lemma first_definition_wins_witness :
  collectSymbols (FE := upgradeFE) (FS := plainFS)
    1%nat storeWithDefinition
  = Ok (CXChildVisit_Recurse, storeWithDefinition).
Proof.
  eapply (first_definition_wins (FE := upgradeFE)
            (FS := plainFS) 1%nat storeWithDefinition 0%nat).
  - vm_compute. reflexivity.
  - vm_compute. reflexivity.
  - reflexivity.
Defined.



(** ** The back-reference pass *)

Lemma propagateAll_app (ps qs : list EntryPtr) (d : CollectData) :
  propagateAll (ps ++ qs) d = d' ← propagateAll ps d; propagateAll qs d'.
Proof.
  revert d; induction ps as [|p ps IH]; intros d; simpl; [reflexivity|].
  destruct (propagate p d); simpl; [apply IH | reflexivity].
Qed.

Lemma propagate_frame (p : EntryPtr) (d d' : CollectData) :
  propagate p d = Ok d' ->
  seen d' = seen d /\ length (data d') = length (data d)
  /\ dependencies d' = dependencies d.
Proof.
  unfold propagate, Q_ASSERT. intros H.
  repeat match type of H with
         | context [mbind _ (if ?x then _ else _)] => destruct x eqn:?; simpl in H
         | context [match ?x with _ => _ end] => destruct x eqn:?; simpl in H
         end;
    try discriminate; inversion H; subst; simpl;
    rewrite ?length_insert; auto.
Qed.

Lemma propagateAll_frame (ps : list EntryPtr) (d d' : CollectData) :
  propagateAll ps d = Ok d' ->
  seen d' = seen d /\ length (data d') = length (data d)
  /\ dependencies d' = dependencies d.
Proof.
  revert d; induction ps as [|p ps IH]; intros d; simpl.
  - intros [= <-]. auto.
  - destruct (propagate p d) as [d1|] eqn:Hp; simpl; [|discriminate].
    intros H. apply IH in H as (-> & -> & ->). by apply propagate_frame in Hp.
Qed.

(** The turn of a method, constructor or destructor declaration whose
    reference names a location without an entry. *)
Lemma propagate_missing_definition (p : EntryPtr) (d : CollectData) (entry : DataEntry) :
  data d !! p = Some entry ->
  isMethodKind (kind (Data.cursor (cursor entry))) = true ->
  key_ne (Data.cursor (cursor entry)) (Data.cursor (reference entry)) = true ->
  isDefinition (Data.cursor (cursor entry)) = false ->
  seen d !! locationKey (Data.cursor (reference entry)) = None ->
  propagate p d = Abort.
Proof.
  intros Hp Hk Hne Hd Hs. unfold propagate. by rewrite Hp, Hk, Hne, Hd, Hs.
Qed.

(** C4, as the code has it.  When the pass comes to the entry of a method,
    constructor or destructor declaration (its key differs from its
    reference and is not a definition) and the location of its reference
    has no entry in the store, the assertion on the target fails: the pass
    is aborted there, and [writeData] writes nothing. *)
Theorem missing_definition_aborts (d d' : CollectData) (p : EntryPtr)
    (entry : DataEntry) :
  (p < length (data d))%nat ->
  propagateAll (seq 0 p) d = Ok d' ->
  data d' !! p = Some entry ->
  isMethodKind (kind (Data.cursor (cursor entry))) = true ->
  key_ne (Data.cursor (cursor entry)) (Data.cursor (reference entry)) = true ->
  isDefinition (Data.cursor (cursor entry)) = false ->
  seen d !! locationKey (Data.cursor (reference entry)) = None ->
  backReferences d = Abort
  /\ forall db, writeData (Some db) d = Abort.
Proof.
  intros Hlt Hpre Hp Hk Hne Hd Hs.
  assert (Hb : backReferences d = Abort).
  { unfold backReferences.
    replace (length (data d)) with (p + S (length (data d) - S p))%nat by lia.
    rewrite seq_app, propagateAll_app, Hpre. simpl.
    destruct (propagateAll_frame _ _ _ Hpre) as (Hseen & _ & _).
    rewrite <- Hseen in Hs.
    by rewrite (propagate_missing_definition p d' entry Hp Hk Hne Hd Hs). }
  split; [exact Hb|]. intros db. unfold writeData. by rewrite Hb.
Qed.

(** The header of [methodRows]: the declaration of [Foo::bar(int)] refers
    to foo.cpp, which was not indexed. *)
Lemma missing_definition_aborts_witness :
  backReferences methodStore = Abort
  /\ forall db, writeData (Some db) methodStore = Abort.
Proof.
  eapply (missing_definition_aborts methodStore methodStore 1%nat).
  - vm_compute. lia.
  - vm_compute. reflexivity.
  - vm_compute. reflexivity.
  - reflexivity.
  - reflexivity.
  - reflexivity.
  - vm_compute. reflexivity.
Defined.

(** C4 fails as stated: with a method declaration whose definition was not
    indexed the run does not complete; the pass, and with it [writeData] on
    an opened empty database, is aborted. *)
Lemma missing_definition_crash :
  (exists entry,
     data methodStore !! 1%nat = Some entry
     /\ kind (Data.cursor (cursor entry)) = CXCursor_CXXMethod
     /\ isDefinition (Data.cursor (cursor entry)) = false
     /\ seen methodStore !! locationKey (Data.cursor (reference entry)) = None)
  /\ backReferences methodStore = Abort
  /\ writeData (Some ∅) methodStore = Abort.
Proof.
  split; [|split].
  - eexists. split; [vm_compute; reflexivity|].
    repeat split; vm_compute; reflexivity.
  - vm_compute. reflexivity.
  - vm_compute. reflexivity.
Qed.

(** ** The dictionary *)

Lemma dictInsert_here (name location : string) (dict : Dict) :
  location ∈ dictValue (dictInsert name location dict) name.
Proof.
  unfold dictValue, dictInsert. rewrite lookup_insert_eq. simpl. set_solver.
Qed.

Lemma dictInsert_mono (name location n l : string) (dict : Dict) :
  l ∈ dictValue dict n -> l ∈ dictValue (dictInsert name location dict) n.
Proof.
  unfold dictValue, dictInsert. intros H.
  destruct (decide (name = n)) as [->|Hne].
  - rewrite lookup_insert_eq. simpl. set_solver.
  - by rewrite lookup_insert_ne.
Qed.

Lemma qualify_mono (parents : list string) (name : string) (colon : Z)
    (location n l : string) (dict : Dict) :
  l ∈ dictValue dict n -> l ∈ dictValue (qualify parents name colon location dict) n.
Proof.
  revert name colon dict; induction parents as [|cur rest IH];
    intros name colon dict H; simpl; [exact H|].
  destruct (negb (colon =? -1)); apply IH; auto using dictInsert_mono.
Qed.

Lemma collectDictSide_mono (d : Data.Data) (n l : string) (dict : Dict) :
  l ∈ dictValue dict n -> l ∈ dictValue (collectDictSide d dict) n.
Proof.
  intros H. unfold collectDictSide.
  repeat match goal with
         | |- context [if ?b then _ else _] => destruct b
         end; auto using qualify_mono, dictInsert_mono.
Qed.

Lemma collectDict_mono (entry : DataEntry) (n l : string) (dict : Dict) :
  l ∈ dictValue dict n -> l ∈ dictValue (collectDict entry dict) n.
Proof. intros H. unfold collectDict. auto using collectDictSide_mono. Qed.

Lemma writeEntries_fold (entries : list DataEntry) (db : DB) (dict : Dict)
    (ds : list Item) :
  foldl (fun '(db, dict, ds) entry =>
           (writeEntry db entry, collectDict entry dict, (ds ++ putDataEntry entry)%list))
        (db, dict, ds) entries
  = (foldl writeEntry db entries,
     foldl (fun dict entry => collectDict entry dict) dict entries,
     (ds ++ concat (map putDataEntry entries))%list).
Proof.
  revert db dict ds; induction entries as [|e entries IH]; intros db dict ds; simpl.
  - by rewrite app_nil_r.
  - rewrite IH. by rewrite <- app_assoc.
Qed.

Lemma collectDict_fold_mono (entries : list DataEntry) (n l : string) (dict : Dict) :
  l ∈ dictValue dict n ->
  l ∈ dictValue (foldl (fun dict entry => collectDict entry dict) dict entries) n.
Proof.
  revert dict; induction entries as [|e entries IH]; intros dict H; simpl; [exact H|].
  apply IH. by apply collectDict_mono.
Qed.

(** The four names of a method [bar(int)] whose innermost container is
    [Foo], after the cursor side of its entry has been added. *)
Lemma collectDictSide_method (d : Data.Data) (outer : list string) (dict : Dict)
    (name : string) :
  isValid (Data.cursor d) = true ->
  kind (Data.cursor d) = CXCursor_CXXMethod ->
  symbolName (Data.cursor d) = "bar(int)" ->
  Data.parentNames d = "Foo" :: outer ->
  In name ["bar"; "bar(int)"; "Foo::bar"; "Foo::bar(int)"] ->
  cursorKeyToString (Data.cursor d) ∈ dictValue (collectDictSide d dict) name.
Proof.
  intros Hv Hk Hn Hp Hin. unfold collectDictSide.
  rewrite Hv, Hk, Hn, Hp. simpl.
  unfold left. simpl.
  apply qualify_mono.
  destruct Hin as [<-|[<-|[<-|[<-|[]]]]].
  - do 2 apply dictInsert_mono. apply dictInsert_here.
  - do 3 apply dictInsert_mono. apply dictInsert_here.
  - apply dictInsert_mono. apply dictInsert_here.
  - apply dictInsert_here.
Qed.

(** C8. For an entry of the store whose cursor is a method named
    [bar(int)] with the class [Foo] as its innermost container, the
    dictionary built over the store's entries has the method's location
    under each of the names [bar], [bar(int)], [Foo::bar] and
    [Foo::bar(int)]. *)
Theorem dictionary_round_trip (entries : list DataEntry) (db : DB)
    (entry : DataEntry) (outer : list string) (name : string) :
  In entry entries ->
  isValid (Data.cursor (cursor entry)) = true ->
  kind (Data.cursor (cursor entry)) = CXCursor_CXXMethod ->
  symbolName (Data.cursor (cursor entry)) = "bar(int)" ->
  Data.parentNames (cursor entry) = "Foo" :: outer ->
  In name ["bar"; "bar(int)"; "Foo::bar"; "Foo::bar(int)"] ->
  cursorKeyToString (Data.cursor (cursor entry))
    ∈ dictValue (snd (fst (writeEntries entries db))) name.
Proof.
  intros Hin Hv Hk Hn Hp Hname. unfold writeEntries.
  rewrite writeEntries_fold. simpl.
  apply in_split in Hin as (l1 & l2 & ->).
  rewrite foldl_app. simpl. apply collectDict_fold_mono.
  unfold collectDict. apply collectDictSide_mono.
  by apply (collectDictSide_method _ outer).
Qed.

(** The entries of [methodStore]: the location of the declaration of
    [Foo::bar(int)] is found under the four names. *)
Lemma dictionary_round_trip_witness :
  "/src/foo.h:3:8" ∈ dictValue (snd (fst (writeEntries (data methodStore) ∅))) "bar"
  /\ "/src/foo.h:3:8"
       ∈ dictValue (snd (fst (writeEntries (data methodStore) ∅))) "bar(int)"
  /\ "/src/foo.h:3:8"
       ∈ dictValue (snd (fst (writeEntries (data methodStore) ∅))) "Foo::bar"
  /\ "/src/foo.h:3:8"
       ∈ dictValue (snd (fst (writeEntries (data methodStore) ∅))) "Foo::bar(int)".
Proof.
  assert (H : forall name,
             In name ["bar"; "bar(int)"; "Foo::bar"; "Foo::bar(int)"] ->
             "/src/foo.h:3:8"
               ∈ dictValue (snd (fst (writeEntries (data methodStore) ∅))) name).
  { intros name Hname.
    apply (dictionary_round_trip (data methodStore) ∅ methodEntry [] name);
      try reflexivity; [|exact Hname].
    vm_compute. right. left. reflexivity. }
  repeat split; apply H; simpl; auto.
Defined.

(** ** Entries without a valid cursor key *)

(** C9, as the code has it.  For an entry whose cursor key is not valid,
    [writeEntry] writes no symbol record and the cursor side of the entry
    adds nothing to the dictionary: the entry adds what its reference side
    adds, which is nothing when the reference key is not valid either.  The
    manifest stream counts every entry of the store and holds the items of
    every one of them, this entry included. *)
Theorem invalid_entry_output (entries : list DataEntry) (entry : DataEntry)
    (db : DB) (dict : Dict) :
  isValid (Data.cursor (cursor entry)) = false ->
  writeEntry db entry = db
  /\ collectDict entry dict = collectDictSide (reference entry) dict
  /\ (isValid (Data.cursor (reference entry)) = false ->
      collectDict entry dict = dict)
  /\ (In entry entries ->
      exists before after,
        snd (writeEntries entries db)
        = (IInt (Z.of_nat (length entries))
             :: before ++ putDataEntry entry ++ after)%list).
Proof.
  intros Hv.
  assert (Hside : collectDictSide (cursor entry) dict = dict)
    by (unfold collectDictSide; by rewrite Hv).
  split; [|split; [|split]].
  - unfold writeEntry. by rewrite Hv.
  - unfold collectDict. by rewrite Hside.
  - intros Hr. unfold collectDict. rewrite Hside.
    unfold collectDictSide. by rewrite Hr.
  - intros Hin. apply in_split in Hin as (l1 & l2 & ->).
    unfold writeEntries. rewrite writeEntries_fold. simpl.
    exists (concat (map putDataEntry l1)), (concat (map putDataEntry l2)).
    by rewrite map_app, concat_app.
Qed.

(** The entry of the macro definition of [macroStore], whose two keys are
    the null key. *)
Lemma invalid_entry_output_witness :
  writeEntry ∅ newDataEntry = ∅
  /\ collectDict newDataEntry ∅ = ∅
  /\ exists before after,
       snd (writeEntries (data macroStore) ∅)
       = (IInt 1 :: before ++ putDataEntry newDataEntry ++ after)%list.
Proof.
  destruct (invalid_entry_output (data macroStore) newDataEntry ∅ ∅)
    as (H1 & _ & H3 & H4); [reflexivity|].
  split; [exact H1|]. split; [apply H3; reflexivity|].
  apply H4. vm_compute. left. reflexivity.
Defined.

(** C9 fails as stated: the store that holds only the entry of a macro
    definition, whose cursor key is not valid, is written with a manifest
    that counts one entry and holds that entry's items. *)
Lemma invalid_entry_in_manifest :
  data macroStore = [newDataEntry]
  /\ isValid (Data.cursor (cursor newDataEntry)) = false
  /\ exists db,
       writeData (Some ∅) macroStore = Ok (macroStore, Some db)
       /\ db !! " " = Some (Stream (IInt 1 :: putDataEntry newDataEntry)).
Proof.
  split; [vm_compute; reflexivity|]. split; [reflexivity|].
  eexists. split; vm_compute; reflexivity.
Qed.

(** ** The inclusion walker *)

Section DependencyProperties.
Context `{FE : FrontEnd} `{FS : FileSystem}.

Lemma record_files_dom (files : list string) (h : gmap Path time_t) (p : Path) :
  p ∈ dom (foldl (fun (h : gmap Path time_t) f =>
                    let p := resolved f in <[p := lastModified p]> h) h files)
  <-> p ∈ dom h \/ exists g, In g files /\ p = resolved g.
Proof.
  revert h; induction files as [|f files IH]; intros h; simpl.
  - split; [auto | intros [?|(g & [] & _)]; done].
  - rewrite IH, dom_insert, elem_of_union, elem_of_singleton. split.
    + intros [[->|?]|(g & Hg & ->)]; eauto.
    + intros [?|(g & [<-|Hg] & ->)]; eauto.
Qed.

Lemma getInclusions_dom (included : string) (stack : list string)
    (deps : Dependencies) (p : Path) :
  p ∈ dom (dep_dependencies (getInclusions included stack deps))
  <-> p ∈ dom (dep_dependencies deps)
      \/ (stack <> []
          /\ (p = resolved included
              \/ exists g, In g (take (length stack - 1) stack) /\ p = resolved g)).
Proof.
  unfold getInclusions. destruct stack as [|s stack].
  - simpl. split; [auto | intros [?|[? _]]; done].
  - change (length (s :: stack)) with (S (length stack)).
    replace (Z.to_nat (Z.of_nat (S (length stack)) - 1)) with (length stack) by lia.
    replace (Z.of_nat (S (length stack)) =? 0) with false
      by (symmetry; apply Z.eqb_neq; lia).
    cbn [negb dep_dependencies]. replace (S (length stack) - 1)%nat with (length stack) by lia.
    rewrite record_files_dom, dom_insert, elem_of_union, elem_of_singleton.
    split.
    + intros [[->|?]|?]; [right; split; [done|auto] | auto | right; split; [done|auto]].
    + intros [?|[_ [->|?]]]; auto.
Qed.

Lemma clang_getInclusions_frame (inclusions : list (string * list string))
    (deps : Dependencies) :
  let deps' := foldl (fun deps '(included, stack) => getInclusions included stack deps)
                     deps inclusions in
  file deps' = file deps /\ arguments deps' = arguments deps
  /\ dep_lastModified deps' = dep_lastModified deps.
Proof.
  revert deps; induction inclusions as [|[f stack] l IH]; intros deps; simpl; [auto|].
  destruct (IH (getInclusions f stack deps)) as (-> & -> & ->).
  unfold getInclusions. by destruct (negb _).
Qed.

Lemma clang_getInclusions_dom (inclusions : list (string * list string))
    (deps : Dependencies) (p : Path) :
  p ∈ dom (dep_dependencies
             (foldl (fun deps '(included, stack) => getInclusions included stack deps)
                    deps inclusions))
  <-> p ∈ dom (dep_dependencies deps)
      \/ exists included stack,
           In (included, stack) inclusions /\ stack <> []
           /\ (p = resolved included
               \/ exists g, In g (take (length stack - 1) stack) /\ p = resolved g).
Proof.
  revert deps; induction inclusions as [|[f stack] l IH]; intros deps; simpl.
  - split; [auto | intros [?|(? & ? & [] & _)]; done].
  - rewrite IH, getInclusions_dom. split.
    + intros [[?|(Hne & Hp)]|(f' & s' & Hin & Hp)]; eauto 10.
    + intros [?|(f' & s' & [[= <- <-]|Hin] & Hp)]; eauto 10.
Qed.

(** C10, as the code has it.  The record that [compile] builds for a
    translation unit keeps the unit's path, arguments and time, and a path
    is a key of its map of included files exactly when, for some call of
    the walker with a non-empty inclusion stack, it is the resolved path of
    the included file or of a file of the stack other than the last.  This
    holds for the unit's own path as for any other: its path is a key
    exactly when the front end reports the unit's file as included. *)
Theorem inclusions_recorded (unit : TranslationUnit) (input : Path)
    (args : GccArguments) (p : Path) :
  let deps :=
    clang_getInclusions unit (mkDependencies input args (lastModified input) ∅) in
  file deps = input
  /\ (p ∈ dom (dep_dependencies deps)
      <-> exists included stack,
            In (included, stack) (unitInclusions unit) /\ stack <> []
            /\ (p = resolved included
                \/ exists g, In g (take (length stack - 1) stack) /\ p = resolved g)).
Proof.
  unfold clang_getInclusions. split.
  - apply (clang_getInclusions_frame (unitInclusions unit)).
  - rewrite clang_getInclusions_dom. simpl. rewrite dom_empty.
    split; [intros [Hp|Hp]; [by apply not_elem_of_empty in Hp | exact Hp] | by right].
Qed.

End DependencyProperties.

(** C10 fails as stated: for a translation unit that includes itself, the
    record that [compile] appends to the store has the unit's own path
    among the keys of its included files. *)
Lemma own_path_recorded :
  exists d deps,
    compileInput (FE := macroFE) (FS := plainFS) [] "/src/a.cpp"
      (Some selfIncluding) emptyCollectData = Ok d
    /\ dependencies d = [deps]
    /\ file deps = "/src/a.cpp"
    /\ "/src/a.cpp" ∈ dom (dep_dependencies deps).
Proof.
  eexists _, _. split; [vm_compute; reflexivity|].
  split; [reflexivity|]. split; [reflexivity|].
  apply elem_of_dom. eexists. vm_compute. reflexivity.
Qed.

(** ** The staleness scan *)

(** *** The order of the keys *)

Lemma strcmp_le_trans (a b c : string) :
  strcmp a b <= 0 -> strcmp b c <= 0 -> strcmp a c <= 0.
Proof.
  revert b c; induction a as [|x a IH]; intros [|y b] [|z c]; simpl; try lia.
  destruct (N.ltb_spec (N_of_ascii x) (N_of_ascii y)),
           (N.ltb_spec (N_of_ascii y) (N_of_ascii x)),
           (N.ltb_spec (N_of_ascii y) (N_of_ascii z)),
           (N.ltb_spec (N_of_ascii z) (N_of_ascii y)),
           (N.ltb_spec (N_of_ascii x) (N_of_ascii z)),
           (N.ltb_spec (N_of_ascii z) (N_of_ascii x)); try lia.
  apply IH.
Qed.

#[global] Instance keyOrder_trans : Transitive keyOrder.
Proof. intros a b c. unfold keyOrder. apply strcmp_le_trans. Qed.

#[global] Instance keyOrder_total : Total keyOrder.
Proof.
  intros a b. unfold keyOrder. rewrite (strcmp_opp (fst a) (fst b)). lia.
Qed.

Lemma append_cons (x : ascii) (a b : string) :
  String x a ++ b = String x (a ++ b).
Proof. reflexivity. Qed.

Lemma prefix_cons (p k : string) :
  String.prefix p k = true -> k = p ++ drop_string (String.length p) k.
Proof.
  revert k; induction p as [|x p IH]; intros k; simpl.
  - by destruct k.
  - destruct k as [|y k]; simpl; [discriminate|].
    destruct (ascii_dec x y) as [->|]; [|discriminate].
    intros H. rewrite append_cons. f_equal. by apply IH.
Qed.

Lemma prefix_append (p s : string) : String.prefix p (p ++ s) = true.
Proof.
  induction p as [|x p IH]; [by destruct s|].
  rewrite append_cons. simpl. by destruct (ascii_dec x x).
Qed.

Lemma prefix_strcmp (p k : string) :
  String.prefix p k = true -> strcmp p k <= 0.
Proof.
  revert k; induction p as [|x p IH]; intros [|y k]; simpl; try lia; try discriminate.
  destruct (ascii_dec x y) as [->|]; [|discriminate].
  rewrite N.ltb_irrefl. apply IH.
Qed.

Lemma N_of_ascii_inj (x y : ascii) : N_of_ascii x = N_of_ascii y -> x = y.
Proof. intros H. by rewrite <- (ascii_N_embedding x), <- (ascii_N_embedding y), H. Qed.

(** A key between a prefix and a key with that prefix has the prefix. *)
Lemma prefix_between (p x k : string) :
  strcmp p x <= 0 -> strcmp x k <= 0 -> String.prefix p k = true ->
  String.prefix p x = true.
Proof.
  revert x k; induction p as [|c p IH]; intros x k Hpx Hxk Hpk.
  - by destruct x.
  - destruct k as [|z k]; simpl in Hpk; [discriminate|].
    destruct (ascii_dec c z) as [<-|]; [|discriminate].
    destruct x as [|y x]; simpl in *; [lia|].
    destruct (N.ltb_spec (N_of_ascii c) (N_of_ascii y)),
             (N.ltb_spec (N_of_ascii y) (N_of_ascii c)); try lia.
    assert (y = c) as -> by (apply N_of_ascii_inj; lia).
    destruct (ascii_dec c c); [|done]. by apply (IH x k).
Qed.

(** *** The records that the scan visits *)

(** [Seek] skips no record whose key is at or after the target. *)
Lemma Seek_elem (target : string) (it : list (string * DBValue))
    (key : string) (value : DBValue) :
  In (key, value) it -> strcmp target key <= 0 ->
  In (key, value) (Seek target it).
Proof.
  induction it as [|[k v] it IH]; simpl; [done|].
  intros Hin Hle. destruct (Z.ltb_spec (strcmp k target) 0) as [Hlt|Hge].
  - destruct Hin as [[= -> ->]|Hin]; [|by apply IH].
    rewrite (strcmp_opp target key) in Hlt. lia.
  - exact Hin.
Qed.

Lemma Seek_suffix (target : string) (it : list (string * DBValue)) :
  exists before, it = (before ++ Seek target it)%list.
Proof.
  induction it as [|[k v] it [before IH]]; simpl; [by exists []|].
  destruct (strcmp k target <? 0).
  - exists ((k, v) :: before). simpl. by rewrite <- IH.
  - by exists [].
Qed.

Lemma Seek_sorted (target : string) (it : list (string * DBValue)) :
  StronglySorted keyOrder it ->
  StronglySorted keyOrder (Seek target it)
  /\ Forall (fun kv => strcmp target (fst kv) <= 0) (Seek target it).
Proof.
  induction 1 as [|[k v] it Hs IH Hall]; simpl; [by split; constructor|].
  destruct (Z.ltb_spec (strcmp k target) 0) as [Hlt|Hge]; [exact IH|].
  assert (Hk : strcmp target k <= 0) by (rewrite (strcmp_opp k target); lia).
  split; [by constructor|]. constructor; [exact Hk|].
  eapply Forall_impl; [exact Hall|]. intros [k' v'] Hle.
  exact (strcmp_le_trans _ _ _ Hk Hle).
Qed.

Lemma visited_In (it : list (string * DBValue)) (key : string) (value : DBValue) :
  In (key, value) (visited it) ->
  In (key, value) it /\ String.prefix "f:" key = true.
Proof.
  induction it as [|[k v] it IH]; simpl; [done|].
  destruct (String.prefix "f:" k) eqn:Hp; simpl; [|done].
  intros [[= -> ->]|Hin]; [auto|]. destruct (IH Hin). auto.
Qed.

Lemma visited_complete (it : list (string * DBValue)) (key : string) (value : DBValue) :
  StronglySorted keyOrder it ->
  Forall (fun kv => strcmp "f:" (fst kv) <= 0) it ->
  In (key, value) it -> String.prefix "f:" key = true ->
  In (key, value) (visited it).
Proof.
  intros Hs Hall Hin Hp.
  induction Hs as [|[k v] it Hs IH Hle]; simpl; [done|].
  apply Forall_cons in Hall as [Hk Hall]. simpl in Hk.
  assert (Hkp : String.prefix "f:" k = true).
  { destruct Hin as [[= -> ->]|Hin]; [exact Hp|].
    apply (prefix_between "f:" k key Hk); [|exact Hp].
    rewrite Forall_forall in Hle. exact (Hle _ (proj2 (list_elem_of_In _ _) Hin)). }
  rewrite Hkp. simpl. destruct Hin as [?|Hin]; [by left|]. right. by apply IH.
Qed.

Lemma visited_prefix (it : list (string * DBValue)) :
  exists rest, it = (visited it ++ rest)%list.
Proof.
  induction it as [|[k v] it [rest IH]]; simpl; [by exists []|].
  destruct (String.prefix "f:" k); simpl; [|by eexists].
  exists rest. by rewrite <- IH.
Qed.

Section ScanProperties.
Context `{FS : FileSystem}.

(** The records visited in a database are those whose key starts with
    "f:", each once. *)
Lemma visited_records (db : DB) (key : string) (value : DBValue) :
  In (key, value) (visited (Seek "f:" (records db)))
  <-> db !! key = Some value /\ String.prefix "f:" key = true.
Proof.
  assert (Hs : StronglySorted keyOrder (records db))
    by (unfold records; apply StronglySorted_merge_sort; apply _).
  assert (Hin : forall kv, In kv (records db) <-> In kv (map_to_list db)).
  { intros kv. unfold records.
    split; apply Permutation_in; [|symmetry]; apply merge_sort_Permutation. }
  destruct (Seek_sorted "f:" _ Hs) as [Hs' Hall]. split.
  - intros Hv. apply visited_In in Hv as [Hv Hp]. split; [|exact Hp].
    destruct (Seek_suffix "f:" (records db)) as [before Heq].
    apply elem_of_map_to_list, list_elem_of_In, Hin. rewrite Heq.
    apply in_or_app. by right.
  - intros [Hl Hp]. apply visited_complete; auto.
    apply Seek_elem; [|by apply prefix_strcmp].
    by apply Hin, list_elem_of_In, elem_of_map_to_list.
Qed.

Lemma visited_NoDup (db : DB) :
  NoDup (visited (Seek "f:" (records db))).*1.
Proof.
  destruct (visited_prefix (Seek "f:" (records db))) as [rest Hv].
  destruct (Seek_suffix "f:" (records db)) as [before Hs].
  assert (Hnd : NoDup (records db).*1).
  { unfold records. rewrite merge_sort_Permutation. apply NoDup_fst_map_to_list. }
  rewrite Hs, Hv, !fmap_app in Hnd.
  apply NoDup_app in Hnd as (_ & _ & Hnd). by apply NoDup_app in Hnd as (Hnd & _).
Qed.

Lemma scan_visited (it : list (string * DBValue)) (dirty : gmap Path GccArguments)
    (known : list Dependencies) :
  fst (scan it dirty known)
  = foldl scanRecord dirty (map (fun kv => readRecord (fst kv) (snd kv)) (visited it)).
Proof.
  revert dirty known; induction it as [|[k v] it IH]; intros dirty known; simpl;
    [reflexivity|].
  destruct (String.prefix "f:" k); simpl; [apply IH | reflexivity].
Qed.

End ScanProperties.

(** *** What the scan makes of the dirty set *)

Section ScanResult.
Context `{FS : FileSystem}.

Lemma scanDependencies_spec (deps : gmap Path time_t) (dirty : gmap Path GccArguments)
    (p : Path) :
  scanDependencies deps dirty !! p
  = match dirty !! p with
    | Some a => Some a
    | None =>
        match deps !! p with
        | Some t => if lastModified p =? t then None else Some []
        | None => None
        end
    end.
Proof.
  unfold scanDependencies.
  apply (map_fold_weak_ind (fun (r : gmap Path GccArguments) (m : gmap Path time_t) =>
    r !! p = match dirty !! p with
             | Some a => Some a
             | None => match m !! p with
                       | Some t => if lastModified p =? t then None else Some []
                       | None => None
                       end
             end)).
  - rewrite lookup_empty. by destruct (dirty !! p).
  - intros i x m r Hi IH.
    destruct (decide (i = p)) as [->|Hne].
    + rewrite lookup_insert_eq. rewrite Hi in IH.
      destruct (dirty !! p) as [a|] eqn:Hd.
      * rewrite bool_decide_eq_true_2 by (rewrite IH; eauto). simpl. exact IH.
      * rewrite bool_decide_eq_false_2 by (rewrite IH; intros [? ?]; discriminate).
        simpl. destruct (lastModified p =? x); simpl; [exact IH|].
        apply lookup_insert_eq.
    + rewrite (lookup_insert_ne m) by done.
      destruct (negb (bool_decide (is_Some (r !! i))) && negb (lastModified i =? x));
        [|exact IH].
      by rewrite lookup_insert_ne.
Qed.

Lemma scanRecord_spec (dirty : gmap Path GccArguments) (dep : Dependencies) (p : Path) :
  scanRecord dirty dep !! p
  = if decide (file dep = p /\ dep_lastModified dep <> lastModified p)
    then Some (arguments dep)
    else match dirty !! p with
         | Some a => Some a
         | None =>
             match dep_dependencies dep !! p with
             | Some t => if lastModified p =? t then None else Some []
             | None => None
             end
         end.
Proof.
  unfold scanRecord. rewrite scanDependencies_spec.
  destruct (Z.eqb_spec (dep_lastModified dep) (lastModified (file dep))) as [He|Hne]; simpl.
  - rewrite decide_False; [reflexivity|]. intros [<- ?]. done.
  - destruct (decide (file dep = p)) as [<-|Hp].
    + rewrite lookup_insert_eq. by rewrite decide_True.
    + rewrite lookup_insert_ne by done. rewrite decide_False; [reflexivity|].
      intros [? _]. done.
Qed.

Lemma scan_fold_dom (deps : list Dependencies) (dirty : gmap Path GccArguments)
    (p : Path) :
  is_Some (foldl scanRecord dirty deps !! p)
  <-> is_Some (dirty !! p) \/ (exists a, changedIn deps p a) \/ includedIn deps p.
Proof.
  revert dirty; induction deps as [|dep deps IH]; intros dirty; simpl.
  - split; [auto|]. intros [?|[(a & dep & [] & _)|(dep & t & [] & _)]]. done.
  - rewrite IH, scanRecord_spec. split.
    + intros [Hs|[(a & d & Hin & H)|(d & t & Hin & H)]].
      * destruct (decide _) as [(Hf & Hc)|_].
        { right. left. exists (arguments dep), dep. simpl. auto. }
        destruct (dirty !! p) eqn:Hd; [left; eauto|].
        destruct (dep_dependencies dep !! p) as [t|] eqn:Ht; [|by destruct Hs].
        destruct (Z.eqb_spec (lastModified p) t); [by destruct Hs|].
        right. right. exists dep, t. simpl. auto.
      * right. left. exists a, d. simpl. tauto.
      * right. right. exists d, t. simpl. tauto.
    + intros [Hs|[(a & d & [<-|Hin] & Hf & Ha & Hc)|(d & t & [<-|Hin] & Ht & Hc)]].
      * left. destruct (decide _); [eauto|]. destruct Hs as [a ->]. eauto.
      * left. rewrite decide_True by auto. eauto.
      * right. left. exists a, d. auto.
      * left. destruct (decide _); [eauto|].
        destruct (dirty !! p); [eauto|]. rewrite Ht.
        destruct (Z.eqb_spec (lastModified p) t); [done|eauto].
      * right. right. exists d, t. auto.
Qed.

Lemma scan_fold_keep (deps : list Dependencies) (dirty : gmap Path GccArguments)
    (p : Path) (a : GccArguments) :
  dirty !! p = Some a ->
  (forall dep, In dep deps -> file dep <> p) ->
  foldl scanRecord dirty deps !! p = Some a.
Proof.
  revert dirty; induction deps as [|dep deps IH]; intros dirty Hd Hne; simpl; [exact Hd|].
  apply IH; [|intros d Hin; apply Hne; by right].
  rewrite scanRecord_spec, Hd. rewrite decide_False; [reflexivity|].
  intros [Hf _]. exact (Hne dep (or_introl eq_refl) Hf).
Qed.

Lemma scan_fold_changed (deps : list Dependencies) (dirty : gmap Path GccArguments)
    (p : Path) (a : GccArguments) :
  NoDup (file <$> deps) -> changedIn deps p a ->
  foldl scanRecord dirty deps !! p = Some a.
Proof.
  revert dirty; induction deps as [|dep deps IH]; intros dirty Hnd Hc; simpl.
  - by destruct Hc as (d & [] & _).
  - rewrite fmap_cons in Hnd. apply NoDup_cons in Hnd as [Hnot Hnd].
    destruct Hc as (d & [<-|Hin] & Hf & Ha & Hc).
    + apply scan_fold_keep.
      * rewrite scanRecord_spec. rewrite decide_True by auto. by rewrite Ha.
      * intros d Hin Hd. apply Hnot. rewrite Hf, <- Hd.
        apply list_elem_of_fmap. exists d. split; [done|]. by apply list_elem_of_In.
    + apply IH; [exact Hnd|]. exists d. auto.
Qed.

Lemma scan_fold_included (deps : list Dependencies) (dirty : gmap Path GccArguments)
    (p : Path) (a : GccArguments) :
  (dirty !! p = None \/ dirty !! p = Some []) ->
  (forall a', ~ changedIn deps p a') ->
  foldl scanRecord dirty deps !! p = Some a -> a = [].
Proof.
  revert dirty; induction deps as [|dep deps IH]; intros dirty Hd Hc; simpl.
  - intros H. destruct Hd as [Hd|Hd]; rewrite Hd in H; congruence.
  - apply IH.
    + rewrite scanRecord_spec. rewrite decide_False.
      * destruct Hd as [-> | ->]; [|by right].
        destruct (dep_dependencies dep !! p) as [t|]; [|by left].
        destruct (lastModified p =? t); auto.
      * intros [Hf Hne]. apply (Hc (arguments dep)). exists dep. simpl. auto.
    + intros a' (d & Hin & H). apply (Hc a'). exists d. simpl. auto.
Qed.

End ScanResult.

(** *** The scan of a database *)

Section ScanDatabase.
Context `{FS : FileSystem}.

Lemma readRecord_file (key : string) (value : DBValue) :
  file (readRecord key value) = drop_string 2 key.
Proof. unfold readRecord. by destruct (readDependencies value) as [[? ?] ?]. Qed.

Lemma dirtyFiles_fold (db : DB) :
  dirtyFiles db = foldl scanRecord ∅ (scanned db).
Proof. unfold dirtyFiles. apply scan_visited. Qed.

Lemma scanned_In (db : DB) (dep : Dependencies) :
  In dep (scanned db) <-> recordOf db (file dep) = Some dep.
Proof.
  unfold scanned, recordOf. rewrite in_map_iff. split.
  - intros ([k v] & <- & Hin). simpl.
    apply visited_records in Hin as [Hl Hp].
    rewrite readRecord_file. apply prefix_cons in Hp.
    change (String.length "f:") with 2%nat in Hp.
    rewrite <- Hp, Hl. reflexivity.
  - intros H. destruct (db !! ("f:" ++ file dep)) as [v|] eqn:Hl; [|discriminate].
    injection H as H. exists ("f:" ++ file dep, v). split; [exact H|].
    apply visited_records. split; [exact Hl|]. apply prefix_append.
Qed.

Lemma scanned_NoDup (db : DB) : NoDup (file <$> scanned db).
Proof.
  unfold scanned. change (map ?f ?l) with (f <$> l). rewrite <- list_fmap_compose.
  apply NoDup_fmap_2_strong.
  - intros [k1 v1] [k2 v2] H1 H2. simpl. rewrite !readRecord_file. intros Heq.
    apply list_elem_of_In, visited_records in H1 as [Hl1 Hp1].
    apply list_elem_of_In, visited_records in H2 as [Hl2 Hp2].
    apply prefix_cons in Hp1, Hp2.
    change (String.length "f:") with 2%nat in Hp1, Hp2.
    assert (k1 = k2) as -> by congruence. congruence.
  - eapply NoDup_fmap_1. apply visited_NoDup.
Qed.

Lemma changedIn_scanned (db : DB) (p : Path) (a : GccArguments) :
  changedIn (scanned db) p a
  <-> exists dep, recordOf db p = Some dep /\ arguments dep = a
                  /\ dep_lastModified dep <> lastModified p.
Proof.
  unfold changedIn. split.
  - intros (dep & Hin & <- & Ha & Hc). apply scanned_In in Hin. eauto.
  - intros (dep & Hr & Ha & Hc). exists dep.
    assert (Hf : file dep = p).
    { unfold recordOf in Hr. destruct (db !! ("f:" ++ p)); [|discriminate].
      injection Hr as <-. by rewrite readRecord_file. }
    split; [|auto]. apply scanned_In. by rewrite Hf.
Qed.

Lemma includedIn_scanned (db : DB) (p : Path) :
  includedIn (scanned db) p <-> includedTimeChanged db p.
Proof.
  unfold includedIn, includedTimeChanged. split.
  - intros (dep & t & Hin & H). apply scanned_In in Hin. eauto.
  - intros (owner & dep & t & Hr & H). exists dep, t. split; [|exact H].
    apply scanned_In.
    assert (file dep = owner) as ->; [|exact Hr].
    unfold recordOf in Hr. destruct (db !! ("f:" ++ owner)); [|discriminate].
    injection Hr as <-. by rewrite readRecord_file.
Qed.

(** C1, as the code has it.  The scan puts into the dirty set: the owner of
    a record, with the record's compile arguments, when the owner's time on
    disk differs from the record's; and a file that some record lists as
    included with a time that differs from its time on disk -- the included
    file itself, not the record's owner, and with empty arguments unless it
    is also an owner whose own time changed.  The dirty set holds exactly
    these files and no others. *)
Theorem staleness_scan (db : DB) (p : Path) :
  (p ∈ dom (dirtyFiles db) <-> ownTimeChanged db p \/ includedTimeChanged db p)
  /\ (forall dep, recordOf db p = Some dep ->
                  dep_lastModified dep <> lastModified p ->
                  dirtyFiles db !! p = Some (arguments dep))
  /\ (~ ownTimeChanged db p -> includedTimeChanged db p ->
      dirtyFiles db !! p = Some []).
Proof.
  rewrite dirtyFiles_fold.
  assert (Hdom : p ∈ dom (foldl scanRecord ∅ (scanned db))
                 <-> ownTimeChanged db p \/ includedTimeChanged db p).
  { rewrite elem_of_dom, scan_fold_dom, lookup_empty, includedIn_scanned.
    split.
    - intros [[? [=]]|[(a & Hc)|?]]; [|by right].
      apply changedIn_scanned in Hc as (dep & ? & ? & ?). left. by exists dep.
    - intros [(dep & Hr & Hc)|?]; [|auto]. right. left. exists (arguments dep).
      apply changedIn_scanned. eauto. }
  split; [exact Hdom|]. split.
  - intros dep Hr Hc. apply scan_fold_changed; [apply scanned_NoDup|].
    apply changedIn_scanned. eauto.
  - intros Hown Hinc.
    assert (Hin : p ∈ dom (foldl scanRecord ∅ (scanned db))) by (apply Hdom; auto).
    apply elem_of_dom in Hin as [a Ha]. rewrite Ha. f_equal.
    eapply scan_fold_included; [left; apply lookup_empty | | exact Ha].
    intros a' Hc. apply changedIn_scanned in Hc as (dep & ? & ? & ?).
    apply Hown. by exists dep.
Qed.

End ScanDatabase.

(** The header of [headerDB]: a.h is newer on disk than the record of a.cpp
    says, and a.h has no record of its own. *)
Lemma staleness_scan_witness :
  dirtyFiles (FS := headerChangedFS) headerDB !! "/src/a.h" = Some [].
Proof.
  apply (staleness_scan (FS := headerChangedFS) headerDB "/src/a.h").
  - intros (dep & Hr & _). vm_compute in Hr. discriminate.
  - exists "/src/a.cpp". eexists _, 100. split; [vm_compute; reflexivity|].
    split; [vm_compute; reflexivity|]. vm_compute. discriminate.
Defined.

(** C1 fails as stated: a.cpp has a record that lists a.h, and a.h has
    changed on disk; the dirty set of the scan then holds a.h, with empty
    arguments, and does not hold a.cpp. *)
Lemma changed_header_not_owner :
  recordOf headerDB "/src/a.cpp"
  = Some (mkDependencies "/src/a.cpp" ["-I."] 100 {["/src/a.h" := 100]})
  /\ lastModified (FileSystem := headerChangedFS) "/src/a.h" = 200
  /\ dirtyFiles (FS := headerChangedFS) headerDB !! "/src/a.cpp" = None
  /\ dirtyFiles (FS := headerChangedFS) headerDB !! "/src/a.h" = Some [].
Proof. repeat split; vm_compute; reflexivity. Qed.

(** ** Well-formed stores *)

Lemma append_nil_l (s : string) : "" ++ s = s.
Proof. reflexivity. Qed.

Ltac norm_append := repeat (rewrite append_cons || rewrite append_nil_l).

Lemma locationKey_valid (k : CursorKey) :
  isValid k = true -> locationKey k <> locationKey nullKey.
Proof.
  intros Hv. apply isValid_fields in Hv as [Hf _]. unfold locationKey.
  change (fileName nullKey ++ ":" ++ number (off nullKey)) with ":0".
  generalize (number (off k)). intros n.
  destruct (fileName k) as [|c [|c' f]]; [done| |]; norm_append.
  - intros [= -> H].
  - destruct f; norm_append; intros [= -> -> H].
Qed.

Lemma cursorKeyToString_valid (k : CursorKey) :
  isValid k = true -> cursorKeyToString k <> cursorKeyToString nullKey.
Proof.
  intros Hv. apply isValid_fields in Hv as [Hf _]. unfold cursorKeyToString.
  change (fileName nullKey ++ ":" ++ number (line nullKey) ++ ":"
            ++ number (col nullKey)) with ":0:0".
  generalize (number (line k)) (number (col k)). intros l c.
  destruct (fileName k) as [|c0 [|c1 [|c2 [|c3 [|c4 f]]]]]; [done|..];
    norm_append.
  all: try (intros [= -> H]; discriminate H).
  intros [= -> -> H]. destruct l as [|x [|y l]];
    repeat (rewrite append_cons in H || rewrite append_nil_l in H); discriminate H.
Qed.

Lemma wellFormed_empty : wellFormed emptyCollectData.
Proof.
  split; [reflexivity|]. split.
  - intros p k H. by destruct p.
  - intros p e H. by destruct p.
Qed.

(** Assigning to an entry whose location is registered a valid cursor key
    with that location. *)
Lemma wellFormed_setEntry (d : CollectData) (p : EntryPtr) (e e' : DataEntry) :
  wellFormed d ->
  data d !! p = Some e ->
  isValid (Data.cursor (cursor e')) = true ->
  seen d !! locationKey (Data.cursor (cursor e')) = Some p ->
  references e' = references e ->
  wellFormed (setEntry p e' d).
Proof.
  intros (Hnull & Hreg & Hent) Hp Hv Hs Hr.
  assert (Hlt : (p < length (data d))%nat) by (eapply lookup_lt_Some; eauto).
  split; [exact Hnull|]. split.
  - intros q k. unfold cursorKeys, setEntry. simpl. rewrite list_lookup_fmap.
    destruct (decide (p = q)) as [<-|Hne].
    + rewrite list_lookup_insert_eq by done. simpl. intros [= <-]. auto.
    + rewrite list_lookup_insert_ne by done. intros H. apply Hreg.
      unfold cursorKeys. by rewrite list_lookup_fmap.
  - intros q e0. unfold setEntry. simpl.
    destruct (decide (p = q)) as [<-|Hne].
    + rewrite list_lookup_insert_eq by done. intros [= <-]. split.
      * rewrite Hr. by apply (Hent p e).
      * intros Hk. rewrite Hk in Hv. discriminate.
    + rewrite list_lookup_insert_ne by done. apply Hent.
Qed.

(** Appending a fresh entry for a valid key whose location is new. *)
Lemma wellFormed_new (d : CollectData) (key : CursorKey) :
  wellFormed d ->
  isValid key = true ->
  seen d !! locationKey key = None ->
  wellFormed (mkCollectData (<[locationKey key := length (data d)]> (seen d))
                (data d ++ [newDataEntry]) (dependencies d)).
Proof.
  intros (Hnull & Hreg & Hent) Hv Hs. split; [|split]; simpl.
  - rewrite lookup_insert_ne; [exact Hnull|]. by apply locationKey_valid.
  - intros q k. unfold cursorKeys. simpl. rewrite fmap_app. simpl. intros H.
    apply lookup_app_Some in H as [H|[Hge H]].
    + destruct (Hreg q k H) as [[Hvk Hsk]|Hk]; [left|by right].
      split; [exact Hvk|]. rewrite lookup_insert_ne; [exact Hsk|]. congruence.
    + right. destruct (q - length _)%nat as [|n]; simpl in H; [|by destruct n].
      by injection H as <-.
  - intros q e H. apply lookup_app_Some in H as [H|[Hge H]]; [by apply (Hent q)|].
    destruct (q - length (data d))%nat as [|n]; simpl in H; [|by destruct n].
    by injection H as <-.
Qed.

Section WellFormedVisits.
Context `{FE : FrontEnd} `{FS : FileSystem}.

Lemma addCursor_inv (c : CXCursor) (key : CursorKey) (x y : Data.Data) :
  addCursor c key x = Ok y -> isValid key = true /\ Data.cursor y = key.
Proof.
  unfold addCursor, Q_ASSERT. destruct (isValid key); simpl; [|discriminate].
  destruct (addParents _ _); simpl; [|discriminate]. by intros [= <-].
Qed.

(** [updateEntry] leaves the store as it is, or assigns to the entry: its
    cursor key becomes the key of the visit and its back-references stay. *)
Lemma updateEntry_shape (c : CXCursor) (key : CursorKey) (p : EntryPtr)
    (e : DataEntry) (d d' : CollectData) (r : CXChildVisitResult) :
  updateEntry c key p e d = Ok (r, d') ->
  d' = d
  \/ exists e', d' = setEntry p e' d /\ Data.cursor (cursor e') = key
                /\ references e' = references e.
Proof.
  unfold updateEntry. intros H.
  repeat match type of H with
         | context [mbind _ (addCursor ?a ?b ?x)] =>
             let Ha := fresh "Ha" in
             destruct (addCursor a b x) eqn:Ha; simpl in H;
             [apply addCursor_inv in Ha as [_ Ha] | discriminate]
         | context [if ?b then _ else _] => destruct b eqn:?; simpl in H
         end;
    try discriminate; injection H as <- <-; auto;
    right; eexists; split; try reflexivity; simpl; auto.
Qed.

Lemma updateEntry_wellFormed (c : CXCursor) (key : CursorKey) (p : EntryPtr)
    (e : DataEntry) (d d' : CollectData) (r : CXChildVisitResult) :
  wellFormed d -> isValid key = true ->
  seen d !! locationKey key = Some p -> data d !! p = Some e ->
  updateEntry c key p e d = Ok (r, d') -> wellFormed d'.
Proof.
  intros Hwf Hv Hs Hp H.
  apply updateEntry_shape in H as [->|(e' & -> & Hk & Hr)]; [exact Hwf|].
  apply (wellFormed_setEntry d p e e'); auto; by rewrite Hk.
Qed.

Lemma collectSymbols_wellFormed (c : CXCursor) (d d' : CollectData)
    (r : CXChildVisitResult) :
  wellFormed d -> collectSymbols c d = Ok (r, d') -> wellFormed d'.
Proof.
  intros Hwf. unfold collectSymbols.
  destruct (isValid (CursorKey_of c)) eqn:Hv; simpl; [|by intros [= _ <-]].
  destruct (seen d !! locationKey (CursorKey_of c)) as [p|] eqn:Hs.
  - destruct (data d !! p) as [e|] eqn:Hp; [|discriminate].
    destruct (hasDefinition e); [by intros [= _ <-]|].
    by apply updateEntry_wellFormed.
  - apply updateEntry_wellFormed; auto using wellFormed_new.
    + simpl. apply lookup_insert_eq.
    + simpl. rewrite lookup_app_r by lia. by rewrite Nat.sub_diag.
Qed.

Lemma visit_wellFormed :
  forall (t : AST) (d d' : CollectData) (b : bool),
    wellFormed d -> visit t d = Ok (b, d') -> wellFormed d'.
Proof.
  fix IH 1. intros [c children] d d' b Hwf. simpl.
  destruct (collectSymbols c d) as [[r d1]|] eqn:Hc; [|discriminate].
  apply collectSymbols_wellFormed in Hc; [|exact Hwf].
  destruct r; try (by intros [= _ <-]).
  clear Hwf. revert d1 Hc.
  induction children as [|t' rest IHc]; intros d1 Hwf; simpl.
  - by intros [= _ <-].
  - destruct (visit t' d1) as [[[] d2]|] eqn:Hv; try discriminate.
    + intros [= _ <-]. exact (IH t' d1 d2 true Hwf Hv).
    + apply IHc. exact (IH t' d1 d2 false Hwf Hv).
Qed.

Lemma visitChildren_wellFormed (ts : list AST) (d d' : CollectData) (b : bool) :
  wellFormed d -> visitChildren ts d = Ok (b, d') -> wellFormed d'.
Proof.
  revert d; induction ts as [|t ts IH]; intros d Hwf; simpl.
  - by intros [= _ <-].
  - destruct (visit t d) as [[[] d1]|] eqn:Hv; try discriminate.
    + intros [= _ <-]. by apply (visit_wellFormed t d d1 true).
    + apply IH. by apply (visit_wellFormed t d d1 false).
Qed.

Lemma compile_wellFormed (args : GccArguments)
    (inputs : list (Path * option TranslationUnit)) (d d' : CollectData) :
  wellFormed d -> compile args inputs d = Ok d' -> wellFormed d'.
Proof.
  revert d; induction inputs as [|[input parsed] inputs IH]; intros d Hwf; simpl.
  - by intros [= <-].
  - destruct (compileInput args input parsed d) as [d1|] eqn:Hc; simpl; [|discriminate].
    apply IH. unfold compileInput in Hc. destruct parsed as [unit|].
    + destruct (visitChildren (unitChildren unit) d) as [[b d2]|] eqn:Hv;
        simpl in Hc; [|discriminate].
      apply visitChildren_wellFormed in Hv; [|exact Hwf].
      injection Hc as <-. exact Hv.
    + by injection Hc as <-.
Qed.

Lemma build_wellFormed
    (items : list (GccArguments * list (Path * option TranslationUnit)))
    (d d' : CollectData) :
  wellFormed d -> build items d = Ok d' -> wellFormed d'.
Proof.
  revert d; induction items as [|[args inputs] items IH]; intros d Hwf; simpl.
  - by intros [= <-].
  - destruct (compile args inputs d) as [d1|] eqn:Hc; simpl; [|discriminate].
    apply IH. by apply (compile_wellFormed args inputs d).
Qed.

End WellFormedVisits.

(** ** Back-references *)

Lemma passStore_setEntry (sn : gmap string EntryPtr) (ks : list CursorKey)
    (d : CollectData) (q : EntryPtr) (e e' : DataEntry) :
  passStore sn ks d -> data d !! q = Some e ->
  Data.cursor (cursor e') = Data.cursor (cursor e) ->
  passEntry sn ks e' ->
  passStore sn ks (setEntry q e' d).
Proof.
  intros (Hs & Hk & He) Hq Hc Hpe.
  assert (Hlt : (q < length (data d))%nat) by (eapply lookup_lt_Some; eauto).
  split; [exact Hs|]. split.
  - rewrite <- Hk. unfold cursorKeys, setEntry. simpl.
    rewrite list_fmap_insert. apply list_insert_id.
    rewrite list_lookup_fmap, Hq. simpl. by rewrite Hc.
  - intros p e0. unfold setEntry. simpl.
    destruct (decide (q = p)) as [<-|Hne].
    + rewrite list_lookup_insert_eq by done. by intros [= <-].
    + rewrite list_lookup_insert_ne by done. apply He.
Qed.

Lemma isMethodKind_nullKey : isMethodKind (kind nullKey) = false.
Proof. reflexivity. Qed.

Lemma propagate_passStore (sn : gmap string EntryPtr) (ks : list CursorKey)
    (p : EntryPtr) (d d' : CollectData) :
  keysRegistered sn ks -> coherent ks ->
  passStore sn ks d -> propagate p d = Ok d' -> passStore sn ks d'.
Proof.
  intros Hreg Hcoh Hps. pose proof Hps as (Hs & Hk & He).
  unfold propagate. destruct (data d !! p) as [entry|] eqn:Hp; [|discriminate].
  assert (Hkp : ks !! p = Some (Data.cursor (cursor entry))).
  { rewrite <- Hk. unfold cursorKeys. by rewrite list_lookup_fmap, Hp. }
  destruct (isMethodKind (kind (Data.cursor (cursor entry)))) eqn:Hm.
  - destruct (_ && _); [|by intros [= <-]].
    destruct (seen d !! _) as [q|]; [|discriminate].
    unfold Q_ASSERT. destruct (negb (q =? p)%nat); simpl; [|discriminate].
    destruct (data d !! q) as [target|] eqn:Hq; [|discriminate].
    intros [= <-]. apply (passStore_setEntry sn ks d q target); auto.
    destruct (He q target Hq) as [_ Hself]. split; [|exact Hself].
    simpl. intros _ q' Hq'.
    destruct (Hreg p _ Hkp) as [[Hv Hsp]|Hnull].
    + rewrite Hsp in Hq'. injection Hq' as <-. eauto.
    + rewrite Hnull, isMethodKind_nullKey in Hm. discriminate.
  - destruct (seen d !! _) as [r|] eqn:Hr; [|by intros [= <-]].
    destruct (Nat.eqb_spec r p) as [->|Hne]; [by intros [= <-]|].
    destruct (data d !! r) as [target|] eqn:Ht; [|discriminate].
    intros [= <-]. apply (passStore_setEntry sn ks d r target); auto.
    destruct (He r target Ht) as [Hnull Hself]. split; [exact Hnull|].
    simpl. rewrite elem_of_union, elem_of_singleton. intros [Heq|Hin]; [|done].
    assert (Hkr : ks !! r = Some (Data.cursor (cursor target))).
    { rewrite <- Hk. unfold cursorKeys. by rewrite list_lookup_fmap, Ht. }
    rewrite Hs in Hr.
    destruct (Hreg r _ Hkr) as [[Hvr Hsr]|Hnr], (Hreg p _ Hkp) as [[Hvp Hsp]|Hnp].
    + apply Hne. apply (Hcoh r p _ _ Hkr Hkp Hvr Hvp) in Heq.
      rewrite Heq, Hsp in Hsr. by injection Hsr.
    + rewrite Hnp in Heq. by apply cursorKeyToString_valid in Heq.
    + rewrite Hnr in Heq. symmetry in Heq. by apply cursorKeyToString_valid in Heq.
    + destruct (proj1 (He p entry Hp) Hnp r Hr) as (k & Hk' & Hv).
      rewrite Hkr in Hk'. injection Hk' as <-. rewrite Hnr in Hv. discriminate.
Qed.

Lemma propagateAll_passStore (sn : gmap string EntryPtr) (ks : list CursorKey)
    (ps : list EntryPtr) (d d' : CollectData) :
  keysRegistered sn ks -> coherent ks ->
  passStore sn ks d -> propagateAll ps d = Ok d' -> passStore sn ks d'.
Proof.
  intros Hreg Hcoh. revert d; induction ps as [|p ps IH]; intros d Hps; simpl.
  - by intros [= <-].
  - destruct (propagate p d) as [d1|] eqn:Hp; simpl; [|discriminate].
    apply IH. by apply (propagate_passStore sn ks p d).
Qed.

Lemma wellFormed_passStore (d : CollectData) :
  wellFormed d -> passStore (seen d) (cursorKeys d) d.
Proof.
  intros (Hnull & Hreg & Hent). split; [reflexivity|]. split; [reflexivity|].
  intros p e Hp. destruct (Hent p e Hp) as [Hr Hn]. split.
  - intros Hc q. rewrite (Hn Hc), Hnull. discriminate.
  - rewrite Hr. apply not_elem_of_empty.
Qed.

(** The turn of an entry whose reference leads back to itself changes
    nothing. *)
Lemma propagate_self (p : EntryPtr) (d d' : CollectData) (e : DataEntry) :
  data d !! p = Some e ->
  seen d !! locationKey (Data.cursor (reference e)) = Some p ->
  propagate p d = Ok d' -> d' = d.
Proof.
  intros Hp Hs. unfold propagate. rewrite Hp, Hs, Nat.eqb_refl. simpl.
  destruct (isMethodKind _); [|by intros [= <-]].
  destruct (_ && _); [discriminate | by intros [= <-]].
Qed.

(** C7. After an indexing pass and the back-reference pass over its store,
    no entry has its own location string among its back-references,
    provided line and column determine the offset for the valid cursor keys
    of the store: every back-reference is added by the turn of another
    entry.  And the turn of an entry whose reference leads back to the
    entry itself leaves the whole store as it is. *)
Theorem no_self_back_reference `{FE : FrontEnd} `{FS : FileSystem}
    (items : list (GccArguments * list (Path * option TranslationUnit)))
    (d d' : CollectData) :
  build items emptyCollectData = Ok d ->
  coherent (cursorKeys d) ->
  backReferences d = Ok d' ->
  (forall p e, data d' !! p = Some e ->
               cursorKeyToString (Data.cursor (cursor e)) ∉ references e)
  /\ (forall d1 d2 p e,
        data d1 !! p = Some e ->
        seen d1 !! locationKey (Data.cursor (reference e)) = Some p ->
        propagate p d1 = Ok d2 -> d2 = d1).
Proof.
  intros Hb Hcoh Hpass. split.
  - apply build_wellFormed in Hb; [|apply wellFormed_empty].
    pose proof (wellFormed_passStore d Hb) as Hps.
    destruct Hb as (_ & Hreg & _).
    apply (propagateAll_passStore _ _ _ _ _ Hreg Hcoh Hps) in Hpass
      as (_ & Hk & He).
    intros p e Hp. by destruct (He p e Hp) as [_ Hself].
  - intros d1 d2 p e. apply propagate_self.
Qed.

(** The build of [headerAndSource]: the entry of the definition gets the
    declaration's location as a back-reference, and no entry gets its own. *)
Lemma no_self_back_reference_witness :
  exists d',
    backReferences indexedStore = Ok d'
    /\ (forall e, data d' !! 1%nat = Some e ->
                  references e = {["/src/a.h:1:6"]})
    /\ (forall p e, data d' !! p = Some e ->
                    cursorKeyToString (Data.cursor (cursor e)) ∉ references e).
Proof.
  eexists. split; [vm_compute; reflexivity|]. split.
  - intros e [= <-]. reflexivity.
  - eapply (no_self_back_reference (FE := upgradeFE) (FS := plainFS)
              headerAndSource indexedStore).
    + vm_compute. reflexivity.
    + intros [|[|p]] [|[|q]] k1 k2 H1 H2; vm_compute in H1, H2;
        try discriminate; injection H1 as <-; injection H2 as <-;
        intros _ _ H; try reflexivity; vm_compute in H; discriminate.
    + vm_compute. reflexivity.
Defined.

(** * Further properties of the code *)

(** ** Equality and order of keys *)

Lemma strcmp_eq (a b : string) : strcmp a b = 0 <-> a = b.
Proof.
  revert b; induction a as [|x a IH]; intros [|y b]; simpl; try (split; [lia|done]).
  - done.
  - destruct (N.ltb_spec (N_of_ascii x) (N_of_ascii y)),
             (N.ltb_spec (N_of_ascii y) (N_of_ascii x)); try lia.
    + split; [lia|]. intros [= -> _]. lia.
    + split; [lia|]. intros [= -> _]. lia.
    + rewrite IH. assert (x = y) as -> by (apply N_of_ascii_inj; lia).
      split; [by intros ->|by intros [= ->]].
Qed.

Lemma strcmp_lt_trans (a b c : string) :
  strcmp a b < 0 -> strcmp b c < 0 -> strcmp a c < 0.
Proof.
  revert b c; induction a as [|x a IH]; intros [|y b] [|z c]; simpl; try lia.
  destruct (N.ltb_spec (N_of_ascii x) (N_of_ascii y)),
           (N.ltb_spec (N_of_ascii y) (N_of_ascii x)),
           (N.ltb_spec (N_of_ascii y) (N_of_ascii z)),
           (N.ltb_spec (N_of_ascii z) (N_of_ascii y)),
           (N.ltb_spec (N_of_ascii x) (N_of_ascii z)),
           (N.ltb_spec (N_of_ascii z) (N_of_ascii x)); try lia.
  apply IH.
Qed.

Lemma key_eq_null (a b : CursorKey) :
  isValid a = false -> key_eq a b = negb (isValid b).
Proof. intros Ha. unfold key_eq, isNull. by rewrite Ha. Qed.

Lemma key_eq_fields (a b : CursorKey) :
  isValid a = true ->
  key_eq a b = true ->
  isValid b = true /\ fileName a = fileName b /\ off a = off b
  /\ symbolName a = symbolName b /\ kind a = kind b.
Proof.
  intros Ha H. apply key_eq_valid in H as (Hf & Ho & Hs & Hk); [|exact Ha].
  split; [|auto]. apply isValid_fields in Ha as [? ?].
  apply isValid_fields. by rewrite <- Hf, <- Hs.
Qed.

(** X1. [operator==] is an equivalence relation on all keys, valid or not:
    it is reflexive and symmetric, and transitive. *)
Theorem key_eq_equivalence :
  (forall a, key_eq a a = true)
  /\ (forall a b, key_eq a b = key_eq b a)
  /\ (forall a b c, key_eq a b = true -> key_eq b c = true -> key_eq a c = true).
Proof.
  assert (Hrefl : forall a, key_eq a a = true).
  { intros a. destruct (isValid a) eqn:Ha.
    - by apply key_eq_valid.
    - by rewrite key_eq_null, Ha. }
  assert (Hsym : forall a b, key_eq a b = true -> key_eq b a = true).
  { intros a b H. destruct (isValid a) eqn:Ha.
    - destruct (key_eq_fields a b Ha H) as (Hb & ? & ? & ? & ?).
      apply key_eq_valid; auto.
    - rewrite key_eq_null in H by done. apply negb_true_iff in H.
      by rewrite key_eq_null, Ha. }
  split; [exact Hrefl|]. split.
  - intros a b. destruct (key_eq a b) eqn:Hab.
    + symmetry. by apply Hsym.
    + destruct (key_eq b a) eqn:Hba; [|done]. apply Hsym in Hba. congruence.
  - intros a b c Hab Hbc. destruct (isValid a) eqn:Ha.
    + destruct (key_eq_fields a b Ha Hab) as (Hb & ? & ? & ? & ?).
      destruct (key_eq_fields b c Hb Hbc) as (Hc & ? & ? & ? & ?).
      apply key_eq_valid; [done|]. repeat split; congruence.
    + rewrite key_eq_null in Hab by done. apply negb_true_iff in Hab.
      rewrite key_eq_null in Hbc by done. by rewrite key_eq_null.
Qed.

(** The two keys of [f()] and the null key. *)
Lemma key_eq_equivalence_witness :
  key_eq keyDeclaration keyDeclaration = true
  /\ key_eq nullKey keyDefinition = key_eq keyDefinition nullKey
  /\ key_eq keyDefinition keyDefinition = true.
Proof.
  destruct key_eq_equivalence as (Hr & Hs & Ht).
  split; [apply Hr|]. split; [apply Hs|].
  apply (Ht keyDefinition keyDefinition keyDefinition); reflexivity.
Defined.

(** X2. On valid keys [operator<] is a strict total order that agrees with
    [operator==]: it is transitive, and of [a < b], [b < a] and [a == b]
    at least one holds, [a == b] excluding [a < b]. *)
Theorem key_lt_strict_total (a b c : CursorKey) :
  isValid a = true -> isValid b = true -> isValid c = true ->
  (key_lt a b = true -> key_lt b c = true -> key_lt a c = true)
  /\ (key_lt a b = true \/ key_lt b a = true \/ key_eq a b = true)
  /\ (key_eq a b = true -> key_lt a b = false).
Proof.
  intros Ha Hb Hc. split; [|split].
  - unfold key_lt. rewrite Ha, Hb, Hc. simpl.
    pose proof (strcmp_lt_trans (fileName a) (fileName b) (fileName c)).
    pose proof (strcmp_lt_trans (symbolName a) (symbolName b) (symbolName c)).
    pose proof (strcmp_eq (fileName a) (fileName b)) as Hfab.
    pose proof (strcmp_eq (fileName b) (fileName c)) as Hfbc.
    pose proof (strcmp_eq (symbolName a) (symbolName b)) as Hsab.
    pose proof (strcmp_eq (symbolName b) (symbolName c)) as Hsbc.
    rewrite !Z.gtb_ltb.
    destruct (Z.ltb_spec (strcmp (fileName a) (fileName b)) 0); [|
      destruct (Z.ltb_spec 0 (strcmp (fileName a) (fileName b))); [done|] ].
    + intros _.
      destruct (Z.ltb_spec (strcmp (fileName b) (fileName c)) 0).
      * intros _. destruct (Z.ltb_spec (strcmp (fileName a) (fileName c)) 0); [done|lia].
      * destruct (Z.ltb_spec 0 (strcmp (fileName b) (fileName c))); [done|].
        intros _. rewrite <- (proj1 Hfbc) by lia.
        destruct (Z.ltb_spec (strcmp (fileName a) (fileName b)) 0); [done|lia].
    + rewrite (proj1 Hfab) by lia.
      destruct (Z.ltb_spec (strcmp (fileName b) (fileName c)) 0); [done|].
      destruct (Z.ltb_spec 0 (strcmp (fileName b) (fileName c))); [done|].
      destruct (N.ltb_spec (off a) (off b)).
      * intros _. destruct (N.ltb_spec (off b) (off c)).
        { intros _. destruct (N.ltb_spec (off a) (off c)); [done|lia]. }
        destruct (N.ltb_spec (off c) (off b)); [done|].
        intros _. destruct (N.ltb_spec (off a) (off c)); [done|lia].
      * destruct (N.ltb_spec (off b) (off a)); [done|].
        assert (off a = off b) as -> by lia.
        destruct (N.ltb_spec (off b) (off c)); [done|].
        destruct (N.ltb_spec (off c) (off b)); [done|].
        destruct (Z.ltb_spec (strcmp (symbolName a) (symbolName b)) 0); [|
          destruct (Z.ltb_spec 0 (strcmp (symbolName a) (symbolName b))); [done|] ].
        { intros _.
          destruct (Z.ltb_spec (strcmp (symbolName b) (symbolName c)) 0).
          - intros _.
            destruct (Z.ltb_spec (strcmp (symbolName a) (symbolName c)) 0); [done|lia].
          - destruct (Z.ltb_spec 0 (strcmp (symbolName b) (symbolName c))); [done|].
            intros _. rewrite <- (proj1 Hsbc) by lia.
            destruct (Z.ltb_spec (strcmp (symbolName a) (symbolName b)) 0); [done|lia]. }
        rewrite (proj1 Hsab) by lia.
        destruct (Z.ltb_spec (strcmp (symbolName b) (symbolName c)) 0); [done|].
        destruct (Z.ltb_spec 0 (strcmp (symbolName b) (symbolName c))); [done|].
        rewrite !Z.ltb_lt. lia.
  - destruct (key_lt a b) eqn:Hab; [by left|].
    destruct (key_lt b a) eqn:Hba; [by right; left|]. right. right.
    apply key_eq_valid; [done|].
    unfold key_lt in Hab, Hba. rewrite Ha, Hb in Hab, Hba. simpl in Hab, Hba.
    rewrite (strcmp_opp (fileName a) (fileName b)) in Hba.
    rewrite (strcmp_opp (symbolName a) (symbolName b)) in Hba.
    rewrite !Z.gtb_ltb in Hab, Hba.
    pose proof (strcmp_eq (fileName a) (fileName b)) as Hf.
    pose proof (strcmp_eq (symbolName a) (symbolName b)) as Hs.
    repeat match type of Hab with
           | context [Z.ltb ?x ?y] => destruct (Z.ltb_spec x y); try discriminate
           | context [N.ltb ?x ?y] => destruct (N.ltb_spec x y); try discriminate
           end;
    repeat match type of Hba with
           | context [Z.ltb ?x ?y] => destruct (Z.ltb_spec x y); try discriminate
           | context [N.ltb ?x ?y] => destruct (N.ltb_spec x y); try discriminate
           end; try lia.
    repeat split; [apply Hf|..|apply Hs|]; lia.
  - intros H. apply key_eq_valid in H as (Hf & Ho & Hs & Hk); [|done].
    unfold key_lt. rewrite Ha, Hb, Hf, Ho, Hs, Hk. simpl.
    rewrite !(proj2 (strcmp_eq _ _) eq_refl). simpl.
    rewrite N.ltb_irrefl. apply Z.ltb_irrefl.
Qed.

(** The declaration, the definition and a later use of [f()] in a.cpp. *)
Lemma key_lt_strict_total_witness :
  key_lt keyDeclaration keyUse = true
  /\ (key_lt keyDeclaration keyDefinition = true
      \/ key_lt keyDefinition keyDeclaration = true
      \/ key_eq keyDeclaration keyDefinition = true).
Proof.
  destruct (key_lt_strict_total keyDeclaration keyDefinition keyUse)
    as (Ht & Hc & _); try reflexivity.
  split; [apply Ht; reflexivity | exact Hc].
Defined.

(** X3. A key is below itself exactly when it is not valid, and a key that
    is not valid is below every key: [operator<] is irreflexive on valid
    keys only, and of two invalid keys each is below the other. *)
Theorem key_lt_invalid (a b : CursorKey) :
  key_lt a a = negb (isValid a)
  /\ (isValid a = false -> key_lt a b = true).
Proof.
  split.
  - unfold key_lt. destruct (isValid a); simpl; [|reflexivity].
    rewrite !(proj2 (strcmp_eq _ _) eq_refl). simpl.
    rewrite N.ltb_irrefl. apply Z.ltb_irrefl.
  - intros Ha. unfold key_lt. by rewrite Ha.
Qed.

(** The null key against itself and against a valid key. *)
Lemma key_lt_invalid_witness :
  key_lt nullKey nullKey = true /\ key_lt nullKey keyDefinition = true.
Proof.
  split.
  - apply (proj1 (key_lt_invalid nullKey nullKey)).
  - apply (proj2 (key_lt_invalid nullKey keyDefinition)). reflexivity.
Defined.

(** ** Locations *)

Lemma pretty_N_go_colonFree (x : N) (s : string) :
  colonFree s -> colonFree (pretty_N_go x s).
Proof.
  revert s. induction (N.lt_wf_0 x) as [x _ IH]; intros s Hs.
  assert (x = 0 \/ 0 < x)%N as [->|Hx] by lia.
  - by rewrite pretty_N_go_0.
  - rewrite pretty_N_go_step by done. apply IH; [by apply N.div_lt|].
    split; [|exact Hs]. unfold pretty_N_char. by repeat case_match.
Qed.

Lemma number_colonFree (n : N) : colonFree (number n).
Proof.
  unfold number, pretty, pretty_N. case_decide; [by repeat split|].
  by apply pretty_N_go_colonFree.
Qed.

Lemma colonFree_no_colon (a b : string) : colonFree (a ++ ":" ++ b) -> False.
Proof.
  induction a as [|c a IH]; norm_append; simpl; [by intros [? _]|].
  intros [_ H]. by apply IH.
Qed.

(** The part before the last colon and the colon-free part after it. *)
Lemma split_last_colon (a b x y : string) :
  colonFree x -> colonFree y ->
  a ++ ":" ++ x = b ++ ":" ++ y -> a = b /\ x = y.
Proof.
  intros Hx Hy. revert b; induction a as [|c a IH]; intros [|c' b]; norm_append.
  - by intros [= ->].
  - intros [= <- ->]. by apply colonFree_no_colon in Hx.
  - intros [= -> <-]. by apply colonFree_no_colon in Hy.
  - intros [= -> H]. apply IH in H as [-> ->]. done.
Qed.

Lemma locationKey_inj (k1 k2 : CursorKey) :
  locationKey k1 = locationKey k2 <-> fileName k1 = fileName k2 /\ off k1 = off k2.
Proof.
  unfold locationKey. split.
  - intros H. apply split_last_colon in H as [Hf Ho]; auto using number_colonFree.
    split; [exact Hf|]. unfold number in Ho. by apply (inj pretty) in Ho.
  - by intros [-> ->].
Qed.

(** X4. The two tests for "same location" agree: [equalLocation] holds for
    two keys exactly when they have the same [locationKey], that is, the
    same file name and the same offset. *)
Theorem equalLocation_locationKey (k1 k2 : CursorKey) :
  equalLocation k1 k2 = true <-> locationKey k1 = locationKey k2.
Proof.
  rewrite locationKey_inj. unfold equalLocation.
  rewrite andb_true_iff, N.eqb_eq, String.eqb_eq. tauto.
Qed.

(** ** The hash of a key *)

Section HashProperties.
Context `{PF : Platform}.

Lemma HASHCHAR_range (h ch : Z) : 1 <= HASHCHAR h ch <= 2 ^ 28.
Proof.
  unfold HASHCHAR. change 268435455 with (Z.ones 28). rewrite Z.land_ones by lia.
  set (x := Z.lxor _ _).
  pose proof (Z.mod_pos_bound x (2 ^ 28) ltac:(lia)).
  rewrite Z.mod_small; lia.
Qed.

Lemma hashString_range (s : string) (h : Z) :
  0 <= h <= 2 ^ 28 -> 0 <= hashString s h <= 2 ^ 28.
Proof.
  revert h; induction s as [|c s IH]; intros h Hh; simpl; [exact Hh|].
  destruct (_ =? 0); [exact Hh|]. apply IH.
  pose proof (HASHCHAR_range h (charOfByte (Z.of_N (N_of_ascii c)))). lia.
Qed.

(** X5. The hash of a key is zero exactly when the key is null, and
    otherwise lies between 1 and 2^28, on every platform. *)
Theorem qHash_range (key : CursorKey) :
  0 <= qHash key <= 2 ^ 28 /\ (qHash key = 0 <-> isNull key = true).
Proof.
  unfold qHash. destruct (isNull key); simpl; [split; [lia|done]|].
  unfold bytesOfUint16.
  destruct littleEndian; simpl;
    match goal with
    | |- context [HASHCHAR ?h ?c] =>
        match goal with
        | |- 0 <= HASHCHAR h c <= _ /\ _ =>
            pose proof (HASHCHAR_range h c); split; [lia|split; [lia|done]]
        end
    end.
Qed.

(** X6. Keys that [operator==] holds equal have the same hash. *)
Theorem qHash_key_eq (a b : CursorKey) :
  key_eq a b = true -> qHash a = qHash b.
Proof.
  intros H. unfold qHash, isNull. destruct (isValid a) eqn:Ha.
  - destruct (key_eq_fields a b Ha H) as (-> & -> & -> & -> & ->). reflexivity.
  - rewrite key_eq_null in H by done. apply negb_true_iff in H. by rewrite H.
Qed.

End HashProperties.

(** The declaration of [f()] and the same key with other display
    coordinates, on a platform with signed [char] and the low byte first. *)
Lemma qHash_key_eq_witness :
  qHash (PF := signedLittleEndian) keyDeclaration
  = qHash (PF := signedLittleEndian) keyDeclarationMoved.
Proof.
  apply (qHash_key_eq (PF := signedLittleEndian) keyDeclaration keyDeclarationMoved).
  reflexivity.
Defined.

(** ** What the visitor keeps *)

Section Traversal.
Context `{FE : FrontEnd} `{FS : FileSystem}.

(** A property of stores that every visit keeps is kept by a traversal. *)
Lemma visit_preserves (P : CollectData -> Prop) :
  (forall c d r d', P d -> collectSymbols c d = Ok (r, d') -> P d') ->
  forall (t : AST) (d d' : CollectData) (b : bool),
    P d -> visit t d = Ok (b, d') -> P d'.
Proof.
  intros HP. fix IH 1. intros [c children] d d' b Hd. simpl.
  destruct (collectSymbols c d) as [[r d1]|] eqn:Hc; [|discriminate].
  apply HP in Hc; [|exact Hd].
  destruct r; try (by intros [= _ <-]).
  clear Hd. revert d1 Hc.
  induction children as [|t' rest IHc]; intros d1 Hd; simpl.
  - by intros [= _ <-].
  - destruct (visit t' d1) as [[[] d2]|] eqn:Hv; try discriminate.
    + intros [= _ <-]. exact (IH t' d1 d2 true Hd Hv).
    + apply IHc. exact (IH t' d1 d2 false Hd Hv).
Qed.

Lemma visitChildren_preserves (P : CollectData -> Prop) :
  (forall c d r d', P d -> collectSymbols c d = Ok (r, d') -> P d') ->
  forall (ts : list AST) (d d' : CollectData) (b : bool),
    P d -> visitChildren ts d = Ok (b, d') -> P d'.
Proof.
  intros HP ts. induction ts as [|t ts IH]; intros d d' b Hd; simpl.
  - by intros [= _ <-].
  - destruct (visit t d) as [[[] d1]|] eqn:Hv; try discriminate.
    + intros [= _ <-]. by apply (visit_preserves P HP t d d1 true).
    + apply IH. by apply (visit_preserves P HP t d d1 false).
Qed.

(** If moreover the property does not depend on the dependency records, it
    is kept by an indexing pass. *)
Lemma build_preserves (P : CollectData -> Prop) :
  (forall c d r d', P d -> collectSymbols c d = Ok (r, d') -> P d') ->
  (forall d deps, P d -> P (mkCollectData (seen d) (data d) deps)) ->
  forall (items : list (GccArguments * list (Path * option TranslationUnit)))
         (d d' : CollectData),
    P d -> build items d = Ok d' -> P d'.
Proof.
  intros HP Hdep.
  assert (Hcompile : forall args inputs d d',
             P d -> compile args inputs d = Ok d' -> P d').
  { intros args inputs. induction inputs as [|[input parsed] inputs IH];
      intros d d' Hd; simpl; [by intros [= <-]|].
    destruct (compileInput args input parsed d) as [d1|] eqn:Hc; simpl; [|discriminate].
    apply IH. unfold compileInput in Hc. destruct parsed as [unit|].
    - destruct (visitChildren (unitChildren unit) d) as [[b d2]|] eqn:Hv;
        simpl in Hc; [|discriminate].
      apply (visitChildren_preserves P HP) in Hv; [|exact Hd].
      injection Hc as <-. by apply Hdep.
    - by injection Hc as <-. }
  intros items. induction items as [|[args inputs] items IH]; intros d d' Hd; simpl.
  - by intros [= <-].
  - destruct (compile args inputs d) as [d1|] eqn:Hc; simpl; [|discriminate].
    apply IH. by apply (Hcompile args inputs d).
Qed.

(** What one visit does to the store: nothing; or an assignment to the
    entry registered at the cursor's location, which had no definition; or
    a new entry for the location, registered and assigned to. *)
Lemma collectSymbols_cases (c : CXCursor) (d d' : CollectData) (r : CXChildVisitResult) :
  collectSymbols c d = Ok (r, d') ->
  let key := CursorKey_of c in
  d' = d
  \/ (exists p e e',
        isValid key = true /\ seen d !! locationKey key = Some p
        /\ data d !! p = Some e /\ hasDefinition e = false
        /\ d' = setEntry p e' d
        /\ Data.cursor (cursor e') = key /\ references e' = references e)
  \/ (exists e',
        isValid key = true /\ seen d !! locationKey key = None
        /\ (d' = mkCollectData (<[locationKey key := length (data d)]> (seen d))
                   (data d ++ [newDataEntry]) (dependencies d)
            \/ (d' = mkCollectData (<[locationKey key := length (data d)]> (seen d))
                       (data d ++ [e']) (dependencies d)
                /\ Data.cursor (cursor e') = key /\ references e' = ∅))).
Proof.
  intros H. cbv zeta. unfold collectSymbols in H.
  set (key := CursorKey_of c) in *.
  destruct (isValid key) eqn:Hv; simpl in H; [|injection H as _ <-; by left].
  destruct (seen d !! locationKey key) as [p|] eqn:Hs.
  - destruct (data d !! p) as [e|] eqn:Hp; [|discriminate].
    destruct (hasDefinition e) eqn:Hd; [injection H as _ <-; by left|].
    apply updateEntry_shape in H as [->|(e' & -> & Hk & Hr)]; [by left|].
    right. left. exists p, e, e'. auto 10.
  - right. right.
    apply updateEntry_shape in H as [->|(e' & -> & Hk & Hr)].
    + exists newDataEntry. auto.
    + exists e'. split; [done|]. split; [done|]. right.
      split; [|by split]. unfold setEntry. simpl. f_equal.
      rewrite insert_app_r_alt by lia. by rewrite Nat.sub_diag.
Qed.

End Traversal.

Section VisitorProperties.
Context `{FE : FrontEnd} `{FS : FileSystem}.

Lemma updateEntry_result (c : CXCursor) (key : CursorKey) (p : EntryPtr)
    (e : DataEntry) (d d' : CollectData) (r : CXChildVisitResult) :
  updateEntry c key p e d = Ok (r, d') ->
  (r = CXChildVisit_Continue /\ kind key = CXCursor_InclusionDirective)
  \/ (r = CXChildVisit_Recurse /\ kind key <> CXCursor_InclusionDirective).
Proof.
  unfold updateEntry.
  destruct (Z.eqb_spec (kind key) CXCursor_InclusionDirective) as [Hk|Hk]; intros H.
  - left. split; [|exact Hk].
    destruct (addCursor c key (cursor e)); simpl in H; [|discriminate].
    destruct (addCursor _ _ (reference e)); simpl in H; [|discriminate]. congruence.
  - right. split; [|exact Hk].
    repeat match type of H with
           | context [mbind _ (addCursor ?a ?b ?x)] =>
               destruct (addCursor a b x); simpl in H; [|discriminate]
           | context [if ?b then _ else _] => destruct b; simpl in H
           end; congruence.
Qed.

Lemma collectSymbols_result (c : CXCursor) (d d' : CollectData) (r : CXChildVisitResult) :
  collectSymbols c d = Ok (r, d') ->
  r = CXChildVisit_Recurse
  \/ (r = CXChildVisit_Continue
      /\ kind (CursorKey_of c) = CXCursor_InclusionDirective).
Proof.
  unfold collectSymbols.
  destruct (negb (isValid (CursorKey_of c))); [intros [= <- _]; by left|].
  destruct (seen d !! _) as [p|].
  - destruct (data d !! p) as [e|]; [|discriminate].
    destruct (hasDefinition e); [intros [= <- _]; by left|].
    intros H. apply updateEntry_result in H as [[-> ?]|[-> _]]; auto.
  - intros H. apply updateEntry_result in H as [[-> ?]|[-> _]]; auto.
Qed.

Lemma visit_no_break :
  forall (t : AST) (d d' : CollectData) (b : bool),
    visit t d = Ok (b, d') -> b = false.
Proof.
  fix IH 1. intros [c children] d d' b. simpl.
  destruct (collectSymbols c d) as [[r d1]|] eqn:Hc; [|discriminate].
  apply collectSymbols_result in Hc as [->|[-> _]]; [|by intros [= <- _]].
  revert d1. induction children as [|t' rest IHc]; intros d1; simpl.
  - by intros [= <- _].
  - destruct (visit t' d1) as [[[] d2]|] eqn:Hv; try discriminate.
    + by apply IH in Hv.
    + apply IHc.
Qed.

(** X7. The visitor never stops a traversal: [collectSymbols] answers
    "recurse", or "continue" for an inclusion directive, never "break"; so
    a traversal that is not aborted has visited the children to the last
    one. *)
Theorem traversal_never_stops (ts : list AST) (d d' : CollectData) (b : bool) :
  visitChildren ts d = Ok (b, d') ->
  b = false
  /\ forall c d1 d2 r, collectSymbols c d1 = Ok (r, d2) -> r <> CXChildVisit_Break.
Proof.
  intros H. split.
  - revert d H. induction ts as [|t ts IH]; intros d; simpl; [by intros [= <- _]|].
    destruct (visit t d) as [[[] d1]|] eqn:Hv; try discriminate.
    + by apply visit_no_break in Hv.
    + apply IH.
  - intros c d1 d2 r Hc. by apply collectSymbols_result in Hc as [->|[-> _]].
Qed.

(** X8. On a store whose registered locations all lead to entries, a visit
    aborts in one case only: the cursor has a valid key and is an inclusion
    directive, the front end has no name for the included file, and the
    entry of the location, if there is one, has no definition yet. *)
Theorem collectSymbols_aborts (c : CXCursor) (d : CollectData) :
  (forall lk p, seen d !! lk = Some p -> (p < length (data d))%nat) ->
  collectSymbols c d = Abort
  <-> (isValid (CursorKey_of c) = true
       /\ kind (CursorKey_of c) = CXCursor_InclusionDirective
       /\ clang_getIncludedFileName c = ""
       /\ forall p e, seen d !! locationKey (CursorKey_of c) = Some p ->
                      data d !! p = Some e -> hasDefinition e = false).
Proof.
  intros Hptr.
  assert (Hupd : forall p e d0, isValid (CursorKey_of c) = true ->
            (updateEntry c (CursorKey_of c) p e d0 = Abort
             <-> kind (CursorKey_of c) = CXCursor_InclusionDirective
                 /\ clang_getIncludedFileName c = "")).
  { intros p e d0 Hv. unfold updateEntry.
    destruct (Z.eqb_spec (kind (CursorKey_of c)) CXCursor_InclusionDirective) as [Hk|Hk].
    - destruct (addCursor_ok c _ (cursor e) Hv) as [m ->]. simpl.
      unfold addCursor at 1, Q_ASSERT, inclusionKey, isValid. simpl.
      destruct (clang_getIncludedFileName c) eqn:Hn; simpl.
      + split; auto.
      + destruct (addParents_ok (semanticAncestors clang_getNullCursor)
                    (Data.parentNames (reference e))) as [m' ->]. simpl.
        split; [discriminate|]. intros [_ [=]].
    - split; [|tauto]. intros H. exfalso.
      repeat match type of H with
             | context [if ?b then _ else _] => destruct b eqn:?; simpl in H
             end;
        try discriminate;
        repeat match type of H with
               | context [addCursor ?a ?b ?x] =>
                   let Hx := fresh in
                   destruct (addCursor_ok a b x) as [? Hx];
                   [assumption|rewrite Hx in H; simpl in H]
               end; discriminate. }
  unfold collectSymbols.
  destruct (isValid (CursorKey_of c)) eqn:Hv; simpl.
  - destruct (seen d !! _) as [p|] eqn:Hs.
    + destruct (data d !! p) as [e|] eqn:Hp.
      * destruct (hasDefinition e) eqn:Hd.
        { split; [discriminate|]. intros (_ & _ & _ & H).
          specialize (H p e eq_refl Hp). congruence. }
        rewrite Hupd by done. split.
        { intros [? ?]. repeat split; auto. intros p' e' [= <-]. congruence. }
        tauto.
      * apply Hptr in Hs. apply lookup_ge_None in Hp. lia.
    + rewrite Hupd by done. split; [|tauto].
      intros [? ?]. repeat split; auto. discriminate.
  - split; [discriminate|]. intros [[=] _].
Qed.

End VisitorProperties.

(** The traversal of the class [Foo] of [methodRows] and its method. *)
Lemma traversal_never_stops_witness :
  exists d',
    visitChildren (FE := methodFE) (FS := plainFS)
      [Node (3%nat : @CXCursor methodFE) [Node (1%nat : @CXCursor methodFE) []]]
      emptyCollectData = Ok (false, d').
Proof.
  destruct (visitChildren (FE := methodFE) (FS := plainFS)
              [Node (3%nat : @CXCursor methodFE) [Node (1%nat : @CXCursor methodFE) []]]
              emptyCollectData) as [[b d']|] eqn:H; [|vm_compute in H; discriminate].
  destruct (traversal_never_stops (FE := methodFE) (FS := plainFS) _ _ _ _ H) as [-> _].
  by exists d'.
Defined.

(** The inclusion of a file that was not found, visited on the empty
    store. *)
Lemma collectSymbols_aborts_witness :
  collectSymbols (FE := missingIncludeFE) (FS := plainFS) 1%nat emptyCollectData = Abort.
Proof.
  apply (collectSymbols_aborts (FE := missingIncludeFE) (FS := plainFS)
           1%nat emptyCollectData).
  - intros lk p H. simpl in H. rewrite lookup_empty in H. discriminate.
  - repeat split; try reflexivity.
    intros p e H. simpl in H. rewrite lookup_empty in H. discriminate.
Defined.

Section StoreInvariants.
Context `{FE : FrontEnd} `{FS : FileSystem}.

Lemma collectSymbols_frozen (p : EntryPtr) (e : DataEntry) (c : CXCursor)
    (d d' : CollectData) (r : CXChildVisitResult) :
  hasDefinition e = true ->
  data d !! p = Some e -> collectSymbols c d = Ok (r, d') -> data d' !! p = Some e.
Proof.
  intros Hdef Hp H.
  assert (Hlt : (p < length (data d))%nat) by (eapply lookup_lt_Some; eauto).
  apply collectSymbols_cases in H
    as [->|[(q & e0 & e' & _ & _ & Hq & Hd & -> & _)|(e' & _ & _ & [->|[-> _]])]];
    simpl; auto.
  - destruct (decide (q = p)) as [->|Hne]; [congruence|].
    by rewrite list_lookup_insert_ne.
  - by rewrite lookup_app_l.
  - by rewrite lookup_app_l.
Qed.

(** X9. First definition wins, for the whole pass: an entry that has a
    definition is the same entry, at the same place, after any number of
    further translation units. *)
Theorem definition_is_final
    (items : list (GccArguments * list (Path * option TranslationUnit)))
    (d d' : CollectData) (p : EntryPtr) (e : DataEntry) :
  data d !! p = Some e -> hasDefinition e = true ->
  build items d = Ok d' -> data d' !! p = Some e.
Proof.
  intros Hp Hdef.
  apply (build_preserves (fun d0 => data d0 !! p = Some e)); [| |exact Hp].
  - intros c d0 r d0'. by apply collectSymbols_frozen.
  - auto.
Qed.

Lemma collectSymbols_grows (c : CXCursor) (d d' : CollectData) (r : CXChildVisitResult) :
  collectSymbols c d = Ok (r, d') ->
  (forall lk q, seen d !! lk = Some q -> seen d' !! lk = Some q)
  /\ (length (data d) <= length (data d'))%nat
  /\ (forall p e, data d !! p = Some e ->
        exists e', data d' !! p = Some e' /\ references e' = references e)
  /\ dependencies d' = dependencies d.
Proof.
  intros H.
  apply collectSymbols_cases in H
    as [->|[(q & e0 & e' & _ & _ & Hq & Hd & -> & _ & Hr)|(e' & _ & Hs & Hn)]].
  - repeat split; eauto.
  - simpl. rewrite length_insert. repeat split; auto.
    intros p e Hp. destruct (decide (q = p)) as [->|Hne].
    + exists e'. rewrite list_lookup_insert_eq by (eapply lookup_lt_Some; eauto).
      split; [done|]. congruence.
    + exists e. by rewrite list_lookup_insert_ne.
  - assert (Hseen : forall lk q, seen d !! lk = Some q ->
              <[locationKey (CursorKey_of c) := length (data d)]> (seen d) !! lk = Some q).
    { intros lk q Hl. rewrite lookup_insert_ne; [done|congruence]. }
    destruct Hn as [->|[-> _]]; simpl; rewrite length_app; simpl.
    all: split; [exact Hseen|]; split; [lia|]; split; [|reflexivity].
    all: intros p e Hp; exists e; split; [|done].
    all: rewrite lookup_app_l; [done|eapply lookup_lt_Some; eauto].
Qed.

(** X10. What a traversal never does: it never unregisters a location or
    moves it to another entry, never drops an entry, never touches the
    back-references of an entry, and never touches the dependency
    records. *)
Theorem traversal_keeps (ts : list AST) (d d' : CollectData) (b : bool) :
  visitChildren ts d = Ok (b, d') ->
  (forall lk q, seen d !! lk = Some q -> seen d' !! lk = Some q)
  /\ (length (data d) <= length (data d'))%nat
  /\ (forall p e, data d !! p = Some e ->
        exists e', data d' !! p = Some e' /\ references e' = references e)
  /\ dependencies d' = dependencies d.
Proof.
  apply (visitChildren_preserves (fun d0 =>
    (forall lk q, seen d !! lk = Some q -> seen d0 !! lk = Some q)
    /\ (length (data d) <= length (data d0))%nat
    /\ (forall p e, data d !! p = Some e ->
          exists e', data d0 !! p = Some e' /\ references e' = references e)
    /\ dependencies d0 = dependencies d)).
  - intros c d0 r d0' (H1 & H2 & H3 & H4) Hc.
    apply collectSymbols_grows in Hc as (G1 & G2 & G3 & G4).
    split; [auto|]. split; [lia|]. split; [|congruence].
    intros p e Hp. destruct (H3 p e Hp) as (e1 & Hp1 & Hr1).
    destruct (G3 p e1 Hp1) as (e2 & Hp2 & Hr2). exists e2. split; [done|congruence].
  - repeat split; eauto.
Qed.

Lemma collectSymbols_registry (c : CXCursor) (d d' : CollectData) (r : CXChildVisitResult) :
  registry d -> collectSymbols c d = Ok (r, d') -> registry d'.
Proof.
  intros (Hptr & Hinj & Hsur) H.
  apply collectSymbols_cases in H
    as [->|[(q & e0 & e' & _ & _ & Hq & Hd & -> & _)|(e' & _ & Hs & Hn)]].
  - done.
  - unfold registry, setEntry. simpl. rewrite length_insert. done.
  - assert (Hreg : forall e1, registry
              (mkCollectData (<[locationKey (CursorKey_of c) := length (data d)]> (seen d))
                 (data d ++ [e1]) (dependencies d))).
    { intros e1. unfold registry. simpl. rewrite length_app. simpl.
      set (lk := locationKey (CursorKey_of c)) in *. split; [|split].
      - intros lk' p. destruct (decide (lk = lk')) as [<-|Hne].
        + rewrite lookup_insert_eq. intros [= <-]. lia.
        + rewrite lookup_insert_ne by done. intros Hl. apply Hptr in Hl. lia.
      - intros lk1 lk2 p.
        destruct (decide (lk = lk1)) as [<-|Hne1], (decide (lk = lk2)) as [<-|Hne2];
          rewrite ?lookup_insert_eq, ?lookup_insert_ne by done; auto.
        + intros [= <-] Hl. apply Hptr in Hl. lia.
        + intros Hl [= <-]. apply Hptr in Hl. lia.
        + apply Hinj.
      - intros p Hp. destruct (decide (p = length (data d))) as [->|Hne].
        + exists lk. apply lookup_insert_eq.
        + destruct (Hsur p ltac:(lia)) as [lk' Hl]. exists lk'.
          rewrite lookup_insert_ne; [done|]. intros <-. congruence. }
    destruct Hn as [->|[-> _]]; apply Hreg.
Qed.

(** X11. One entry per location: after an indexing pass from the empty
    store, every registered location leads to an entry of the store, no
    two locations lead to the same entry, and every entry is the entry of
    a registered location. *)
Theorem one_entry_per_location
    (items : list (GccArguments * list (Path * option TranslationUnit)))
    (d : CollectData) :
  build items emptyCollectData = Ok d -> registry d.
Proof.
  apply (build_preserves registry).
  - intros c d0 r d0'. apply collectSymbols_registry.
  - intros d0 deps H. exact H.
  - split; [|split].
    + intros lk p H. simpl in H. by rewrite lookup_empty in H.
    + intros lk1 lk2 p H. simpl in H. by rewrite lookup_empty in H.
    + intros p H. simpl in H. lia.
Qed.

End StoreInvariants.

(** The header declaration of [f()], which has its definition, through
    another build of a.cpp. *)
Lemma definition_is_final_witness :
  exists d' e,
    build (FE := upgradeFE) (FS := plainFS) headerAndSource storeWithDefinition = Ok d'
    /\ data storeWithDefinition !! 0%nat = Some e
    /\ data d' !! 0%nat = Some e.
Proof.
  destruct (build (FE := upgradeFE) (FS := plainFS) headerAndSource storeWithDefinition)
    as [d'|] eqn:H; [|vm_compute in H; discriminate].
  eexists d', _. split; [reflexivity|].
  split; [vm_compute; reflexivity|].
  eapply (definition_is_final (FE := upgradeFE) (FS := plainFS)
            headerAndSource storeWithDefinition d' 0%nat).
  - vm_compute. reflexivity.
  - reflexivity.
  - exact H.
Defined.

(** The traversal of the class [Foo] of [methodRows] and its method. *)
Lemma traversal_keeps_witness :
  exists d',
    visitChildren (FE := methodFE) (FS := plainFS)
      [Node (3%nat : @CXCursor methodFE) [Node (1%nat : @CXCursor methodFE) []]]
      emptyCollectData = Ok (false, d')
    /\ dependencies d' = [].
Proof.
  destruct (visitChildren (FE := methodFE) (FS := plainFS)
              [Node (3%nat : @CXCursor methodFE) [Node (1%nat : @CXCursor methodFE) []]]
              emptyCollectData) as [[[] d']|] eqn:H;
    try (vm_compute in H; discriminate).
  exists d'. split; [reflexivity|].
  by destruct (traversal_keeps (FE := methodFE) (FS := plainFS) _ _ _ _ H)
    as (_ & _ & _ & ->).
Defined.

(** The store of the build of [headerAndSource]. *)
Lemma one_entry_per_location_witness : registry indexedStore.
Proof.
  apply (one_entry_per_location (FE := upgradeFE) (FS := plainFS) headerAndSource).
  vm_compute. reflexivity.
Defined.

Section EntryShape.
Context `{FE : FrontEnd} `{FS : FileSystem}.

Lemma updateEntry_entryShape (c : CXCursor) (key : CursorKey) (p : EntryPtr)
    (e : DataEntry) (d d' : CollectData) (r : CXChildVisitResult) :
  isValid key = true -> entryShape e ->
  updateEntry c key p e d = Ok (r, d') ->
  d' = d \/ exists e', d' = setEntry p e' d /\ entryShape e'.
Proof.
  intros Hv [Href Hdef]. unfold updateEntry. intros H.
  repeat match type of H with
         | context [mbind _ (addCursor ?a ?b ?x)] =>
             let Ha := fresh "Ha" in
             destruct (addCursor a b x) eqn:Ha; simpl in H;
             [apply addCursor_inv in Ha as [? Ha] | discriminate]
         | context [if ?b then _ else _] => destruct b eqn:?; simpl in H
         end;
    try discriminate; injection H as <- <-; auto;
    right; eexists; (split; [reflexivity|]); split; simpl;
    try (intros _; congruence); try (right; congruence); exact Href.
Qed.

Lemma collectSymbols_entryShape (c : CXCursor) (d d' : CollectData)
    (r : CXChildVisitResult) :
  (forall p e, data d !! p = Some e -> entryShape e) ->
  collectSymbols c d = Ok (r, d') ->
  forall p e, data d' !! p = Some e -> entryShape e.
Proof.
  intros Hall. unfold collectSymbols.
  destruct (isValid (CursorKey_of c)) eqn:Hv; simpl; [|by intros [= _ <-]].
  assert (Hset : forall q e0 d0 d1,
            (forall p e, data d0 !! p = Some e -> entryShape e) ->
            entryShape e0 ->
            updateEntry c (CursorKey_of c) q e0 d0 = Ok (r, d1) ->
            forall p e, data d1 !! p = Some e -> entryShape e).
  { intros q e0 d0 d1 H0 He0 Hu.
    apply updateEntry_entryShape in Hu as [->|(e' & -> & He')]; auto.
    intros p e. unfold setEntry. simpl. intros Hp.
    apply list_lookup_insert_Some in Hp as [(_ & <- & _)|[_ Hp]]; eauto. }
  destruct (seen d !! _) as [q|].
  - destruct (data d !! q) as [e0|] eqn:Hq; [|discriminate].
    destruct (hasDefinition e0); [by intros [= _ <-]|].
    apply Hset; eauto.
  - apply Hset.
    + simpl. intros p e Hp.
      apply lookup_app_Some in Hp as [Hp|[_ Hp]]; [eauto|].
      destruct (p - length (data d))%nat as [|n]; simpl in Hp; [|by destruct n].
      injection Hp as <-. split; [by left|discriminate].
    + split; [by left|discriminate].
Qed.

(** X12. The entries that an indexing pass from the empty store leaves:
    no entry has back-references yet; the reference key of an entry is the
    null key or a valid key; the cursor key is either valid, and then its
    location is registered and leads to this entry, or the null key, and
    then the reference key is the null key too and the entry has no
    definition. *)
Theorem indexed_entries
    (items : list (GccArguments * list (Path * option TranslationUnit)))
    (d : CollectData) (p : EntryPtr) (e : DataEntry) :
  build items emptyCollectData = Ok d ->
  data d !! p = Some e ->
  references e = ∅
  /\ (Data.cursor (reference e) = nullKey
      \/ isValid (Data.cursor (reference e)) = true)
  /\ ((isValid (Data.cursor (cursor e)) = true
       /\ seen d !! locationKey (Data.cursor (cursor e)) = Some p)
      \/ (Data.cursor (cursor e) = nullKey /\ Data.cursor (reference e) = nullKey
          /\ hasDefinition e = false)).
Proof.
  intros Hb Hp.
  assert (Hshape : entryShape e).
  { revert p e Hp.
    apply (build_preserves (fun d0 => forall p e, data d0 !! p = Some e -> entryShape e)
             ) with (items := items) (d := emptyCollectData); [| | |exact Hb].
    - intros c d0 r d0'. apply collectSymbols_entryShape.
    - auto.
    - intros p e H. by destruct p. }
  apply build_wellFormed in Hb as (_ & Hreg & Hent); [|apply wellFormed_empty].
  destruct (Hent p e Hp) as [Hrefs Hnull]. destruct Hshape as [Href Hdef].
  split; [exact Hrefs|]. split; [exact Href|].
  destruct (Hreg p (Data.cursor (cursor e))) as [?|Hk]; [|by left|].
  - unfold cursorKeys. by rewrite list_lookup_fmap, Hp.
  - right. split; [exact Hk|]. split; [auto|].
    destruct (hasDefinition e); [|done]. rewrite Hk in Hdef. by specialize (Hdef eq_refl).
Qed.

End EntryShape.

(** The entry of the macro definition of [macroRows] after a build: both
    keys null, no definition. *)
Lemma indexed_entries_witness :
  exists e,
    build (FE := macroFE) (FS := plainFS) macroBuild emptyCollectData = Ok macroIndexed
    /\ data macroIndexed !! 0%nat = Some e
    /\ references e = ∅
    /\ Data.cursor (cursor e) = nullKey /\ Data.cursor (reference e) = nullKey.
Proof.
  assert (Hb : build (FE := macroFE) (FS := plainFS) macroBuild emptyCollectData
               = Ok macroIndexed) by (vm_compute; reflexivity).
  exists newDataEntry. split; [exact Hb|]. split; [vm_compute; reflexivity|].
  destruct (indexed_entries (FE := macroFE) (FS := plainFS) macroBuild macroIndexed
              0%nat newDataEntry Hb) as (H1 & _ & H3); [vm_compute; reflexivity|].
  split; [exact H1|]. destruct H3 as [[Hv _]|(H & H' & _)]; [discriminate Hv|].
  by split.
Defined.

(** ** The contents of the dictionary *)

Lemma qsize_append (a b : string) : qsize (a ++ b) = qsize a + qsize b.
Proof.
  unfold qsize. induction a as [|c a IH]; norm_append; simpl String.length; lia.
Qed.

Lemma append_assoc (a b c : string) : a ++ b ++ c = (a ++ b) ++ c.
Proof. induction a as [|x a IH]; norm_append; [done|by rewrite IH]. Qed.

Lemma take_string_append (a b : string) (n : nat) :
  take_string (String.length a + n) (a ++ b) = a ++ take_string n b.
Proof. induction a as [|c a IH]; norm_append; simpl; [done|by rewrite IH]. Qed.

(** Cutting a qualified name where the shifted index says gives the
    qualified name of the cut. *)
Lemma left_prepend (cur name : string) (colon : Z) :
  0 <= colon ->
  left (colon + (qsize (cur ++ "::" ++ name) - qsize name)) (cur ++ "::" ++ name)
  = cur ++ "::" ++ left colon name.
Proof.
  intros Hc. unfold left.
  rewrite (append_assoc cur "::" name) at 2.
  rewrite (append_assoc cur "::" (take_string _ name)).
  rewrite <- take_string_append. f_equal.
  rewrite (append_assoc cur "::" name), qsize_append. unfold qsize. lia.
Qed.

Lemma indexOf_range (c : ascii) (s : string) :
  indexOf c s = -1 \/ 0 <= indexOf c s.
Proof.
  induction s as [|x s IH]; simpl; [by left|].
  destruct (Ascii.eqb x c); [right; lia|].
  destruct (Z.eqb_spec (indexOf c s) (-1)); [by left|right; lia].
Qed.

Lemma dictInsert_spec (name location n l : string) (dict : Dict) :
  l ∈ dictValue (dictInsert name location dict) n
  <-> l ∈ dictValue dict n \/ (n = name /\ l = location).
Proof.
  unfold dictValue, dictInsert. destruct (decide (name = n)) as [->|Hne].
  - rewrite lookup_insert_eq. simpl. rewrite elem_of_union, elem_of_singleton.
    split; [intros [->|?]; auto | intros [?|[_ ->]]; auto].
  - rewrite lookup_insert_ne by done. split; [auto|]. intros [?|[-> _]]; done.
Qed.

Lemma qualify_spec (parents : list string) (name : string) (colon : Z)
    (location n l : string) (dict : Dict) :
  colon = -1 \/ 0 <= colon ->
  l ∈ dictValue (qualify parents name colon location dict) n
  <-> l ∈ dictValue dict n
      \/ (l = location
          /\ (In n (qualifiedNames parents name)
              \/ (colon <> -1 /\ In n (qualifiedNames parents (left colon name))))).
Proof.
  revert name colon dict. induction parents as [|cur rest IH];
    intros name colon dict Hc; simpl.
  - split; [auto|]. intros [?|(_ & [[]|[_ []]])]. done.
  - destruct (Z.eqb_spec colon (-1)) as [->|Hne]; simpl.
    + rewrite IH by auto. rewrite dictInsert_spec. split.
      * intros [[?|[-> ->]]|(-> & [?|[? _]])]; auto; done.
      * intros [?|(-> & [[<-|?]|[? _]])]; auto; done.
    + assert (H0 : 0 <= colon) by (destruct Hc; [done|lia]).
      assert (Hq : 0 <= qsize (cur ++ "::" ++ name) - qsize name).
      { rewrite (append_assoc cur "::" name), qsize_append. unfold qsize. lia. }
      rewrite IH by (right; lia). rewrite !dictInsert_spec.
      rewrite left_prepend by done. split.
      * intros [[[?|[-> ->]]|[-> ->]]|(-> & [?|[_ ?]])]; auto 10.
      * intros [?|(-> & [[<-|?]|[_ [<-|?]]])]; auto 10.
        right. split; [done|]. right. split; [lia|done].
Qed.

Lemma collectDictSide_spec (d : Data.Data) (n l : string) (dict : Dict) :
  l ∈ dictValue (collectDictSide d dict) n
  <-> l ∈ dictValue dict n
      \/ (inDictionary d = true /\ l = cursorKeyToString (Data.cursor d)
          /\ In n (dictNames d)).
Proof.
  unfold collectDictSide, inDictionary, dictNames.
  destruct (isValid (Data.cursor d)); simpl; [|split; [auto|intros [?|[[=] _]]; done]].
  destruct (isRefOrExpr _); simpl; [split; [auto|intros [?|[[=] _]]; done]|].
  pose proof (indexOf_range "(" (symbolName (Data.cursor d))) as Hr.
  destruct (Z.eqb_spec (indexOf "(" (symbolName (Data.cursor d))) (-1)) as [Hi|Hi];
    simpl; destruct (hasQualifiedNames _); simpl;
    rewrite ?qualify_spec by done; rewrite ?dictInsert_spec; rewrite ?in_app_iff;
    simpl; rewrite ?in_app_iff; simpl;
    (split; [intuition (subst; auto 10) | intuition (subst; auto 10)]).
Qed.

(** X13. The dictionary that [writeData] builds holds, for every entry
    and each of its two sides that goes into the dictionary, the side's
    location under each of the side's names, and nothing else. *)
Theorem dictionary_contents (entries : list DataEntry) (db : DB) (n l : string) :
  l ∈ dictValue (snd (fst (writeEntries entries db))) n
  <-> exists e side,
        In e entries /\ (side = cursor e \/ side = reference e)
        /\ inDictionary side = true
        /\ l = cursorKeyToString (Data.cursor side)
        /\ In n (dictNames side).
Proof.
  unfold writeEntries. rewrite writeEntries_fold. simpl.
  assert (H : forall dict,
    l ∈ dictValue (foldl (fun dict entry => collectDict entry dict) dict entries) n
    <-> l ∈ dictValue dict n
        \/ exists e side,
             In e entries /\ (side = cursor e \/ side = reference e)
             /\ inDictionary side = true
             /\ l = cursorKeyToString (Data.cursor side)
             /\ In n (dictNames side)).
  { induction entries as [|e entries IH]; intros dict; simpl.
    - split; [auto|]. intros [?|(? & ? & [] & _)]. done.
    - rewrite IH. unfold collectDict. rewrite !collectDictSide_spec. split.
      + intros [[[?|(? & ? & ?)]|(? & ? & ?)]|(e' & side & ? & ?)]; [by left|..].
        * right. exists e, (cursor e). auto.
        * right. exists e, (reference e). auto.
        * right. exists e', side. auto.
      + intros [?|(e' & side & [ <- | ? ] & Hs & ? & ? & ?)]; [auto|..].
        * destruct Hs as [-> | ->]; auto 10.
        * right. exists e', side. auto. }
  rewrite H. unfold dictValue at 1. rewrite lookup_empty. simpl.
  split; [intros [Hf|?]; [by apply not_elem_of_empty in Hf|done] | auto].
Qed.

(** ** The written database *)

Lemma writeData_written (db0 : DB) (d d' : CollectData) (out : option DB) :
  writeData (Some db0) d = Ok (d', out) <->
  backReferences d = Ok d' /\ out = Some (written db0 d').
Proof.
  unfold writeData, written, manifestOf, dictionaryOf.
  destruct (backReferences d) as [d1|]; simpl; [|split; [done|by intros [? _]]].
  unfold writeEntries. rewrite writeEntries_fold. simpl. split.
  - by intros [= <- <-].
  - by intros [[= <-] ->].
Qed.

Lemma append_inj_l (p a b : string) : p ++ a = p ++ b -> a = b.
Proof. induction p as [|c p IH]; norm_append; [done|]. intros [= H]. by apply IH. Qed.

Lemma prefix_false_ne (p k s : string) :
  String.prefix p k = false -> k <> p ++ s.
Proof. intros H ->. by rewrite prefix_append in H. Qed.

(** The symbol records. *)
Lemma writeEntry_fold_other (entries : list DataEntry) (db : DB) (k : string) :
  (forall e, In e entries -> isValid (Data.cursor (cursor e)) = true ->
             cursorKeyToString (Data.cursor (cursor e)) <> k) ->
  foldl writeEntry db entries !! k = db !! k.
Proof.
  revert db; induction entries as [|e entries IH]; intros db Hk; simpl; [done|].
  rewrite IH by (intros e' ? ?; apply Hk; [by right|done]). unfold writeEntry.
  destruct (isValid (Data.cursor (cursor e))) eqn:Hv; simpl; [|done].
  rewrite lookup_insert_ne; [done|]. apply Hk; [by left|done].
Qed.

Lemma writeEntry_fold_entry (entries : list DataEntry) (db : DB) (e : DataEntry) :
  In e entries ->
  isValid (Data.cursor (cursor e)) = true ->
  (forall e', In e' entries -> isValid (Data.cursor (cursor e')) = true ->
              cursorKeyToString (Data.cursor (cursor e'))
              = cursorKeyToString (Data.cursor (cursor e)) -> e' = e) ->
  foldl writeEntry db entries !! cursorKeyToString (Data.cursor (cursor e))
  = Some (makeRefValue e).
Proof.
  induction entries as [|x entries IH] using rev_ind; [done|].
  intros Hin Hv Huniq. rewrite foldl_app. simpl. unfold writeEntry at 1.
  destruct (isValid (Data.cursor (cursor x))) eqn:Hx; simpl.
  - destruct (decide (cursorKeyToString (Data.cursor (cursor x))
                      = cursorKeyToString (Data.cursor (cursor e)))) as [Heq|Hne].
    + rewrite (Huniq x) by (auto using in_or_app, in_eq). apply lookup_insert_eq.
    + rewrite lookup_insert_ne by done. apply IH; auto.
      * apply in_app_or in Hin as [?|[->|[]]]; [done|congruence].
      * intros e' ?. apply Huniq. apply in_or_app. by left.
  - apply IH; auto.
    + apply in_app_or in Hin as [?|[->|[]]]; [done|congruence].
    + intros e' ?. apply Huniq. apply in_or_app. by left.
Qed.

(** The dictionary records. *)
Lemma writeDict_spec (db : DB) (dict : Dict) :
  (forall n set, dict !! n = Some set ->
                 writeDict db dict !! ("d:" ++ n) = Some (Raw (locs set)))
  /\ (forall k, (forall n, is_Some (dict !! n) -> k <> "d:" ++ n) ->
                writeDict db dict !! k = db !! k).
Proof.
  unfold writeDict.
  apply (map_fold_weak_ind (fun (r : DB) (m : Dict) =>
    (forall n set, m !! n = Some set -> r !! ("d:" ++ n) = Some (Raw (locs set)))
    /\ (forall k, (forall n, is_Some (m !! n) -> k <> "d:" ++ n) -> r !! k = db !! k))).
  - split; [intros n set H; by rewrite lookup_empty in H|done].
  - intros i x m r Hi [IH1 IH2]. split.
    + intros n set. destruct (decide (i = n)) as [->|Hne].
      * rewrite !lookup_insert_eq. by intros [= ->].
      * rewrite (lookup_insert_ne m) by done. intros H.
        rewrite lookup_insert_ne; [by apply IH1|].
        intros Heq. by apply append_inj_l in Heq.
    + intros k Hk. rewrite lookup_insert_ne.
      * apply IH2. intros n Hn. apply Hk.
        destruct (decide (i = n)) as [->|Hne]; [by rewrite lookup_insert_eq|].
        by rewrite lookup_insert_ne.
      * intros Heq. apply (Hk i); [by rewrite lookup_insert_eq|done].
Qed.

(** The dependency records. *)
Lemma writeDependencies_fold_other (deps : list Dependencies) (db : DB) (k : string) :
  (forall dep, In dep deps -> k <> "f:" ++ file dep) ->
  foldl (fun db dep =>
           writeDependencies db (file dep) (arguments dep)
             (dep_lastModified dep) (dep_dependencies dep)) db deps !! k
  = db !! k.
Proof.
  revert db; induction deps as [|dep deps IH]; intros db Hk; simpl; [done|].
  rewrite IH by (intros dep' ?; apply Hk; by right). unfold writeDependencies.
  rewrite lookup_insert_ne; [done|]. intros Heq. apply (Hk dep); [by left|done].
Qed.

Lemma writeDependencies_fold_Some (deps : list Dependencies) (db : DB)
    (k : string) (v : DBValue) :
  foldl (fun db dep =>
           writeDependencies db (file dep) (arguments dep)
             (dep_lastModified dep) (dep_dependencies dep)) db deps !! k = Some v ->
  db !! k = Some v
  \/ exists dep, In dep deps /\ k = "f:" ++ file dep /\ v = dependencyValue dep.
Proof.
  induction deps as [|x deps IH] using rev_ind; simpl; [auto|].
  rewrite foldl_app. simpl. unfold writeDependencies at 1.
  destruct (decide ("f:" ++ file x = k)) as [<-|Hne].
  - rewrite lookup_insert_eq. intros [= <-]. right. exists x.
    split; [apply in_or_app; right; by left|done].
  - rewrite lookup_insert_ne by done. intros H.
    apply IH in H as [?|(dep & ? & ?)]; [by left|]. right. exists dep.
    split; [apply in_or_app; by left|done].
Qed.

Lemma writeDependencies_fold_record (deps : list Dependencies) (db : DB)
    (dep : Dependencies) :
  In dep deps ->
  (forall dep', In dep' deps -> file dep' = file dep -> dep' = dep) ->
  foldl (fun db dep =>
           writeDependencies db (file dep) (arguments dep)
             (dep_lastModified dep) (dep_dependencies dep)) db deps
    !! ("f:" ++ file dep)
  = Some (dependencyValue dep).
Proof.
  induction deps as [|x deps IH] using rev_ind; [done|].
  intros Hin Huniq. rewrite foldl_app. simpl. unfold writeDependencies at 1.
  destruct (decide (file x = file dep)) as [Heq|Hne].
  - rewrite (Huniq x) by (auto using in_or_app, in_eq). apply lookup_insert_eq.
  - rewrite lookup_insert_ne by (intros H; by apply append_inj_l in H).
    apply IH.
    + apply in_app_or in Hin as [?|[->|[]]]; [done|congruence].
    + intros dep' ?. apply Huniq. apply in_or_app. by left.
Qed.

Lemma cursorKeyToString_not_space (k : CursorKey) :
  isValid k = true -> cursorKeyToString k <> " ".
Proof.
  intros Hv. apply isValid_fields in Hv as [Hf _]. unfold cursorKeyToString.
  destruct (fileName k) as [|c [|c' f]]; [done|..]; norm_append; discriminate.
Qed.

(** X14. The symbol record of an entry.  After [writeData], the database
    holds under the location string of a valid cursor key the location
    string of the entry's reference key and the entry's back-references,
    as the back-reference pass left them, provided no other entry has the
    same location string and the string does not start like a key of the
    dictionary or of the dependency records. *)
Theorem symbol_record_written (db0 db : DB) (d d' : CollectData) (e : DataEntry) :
  writeData (Some db0) d = Ok (d', Some db) ->
  In e (data d') ->
  isValid (Data.cursor (cursor e)) = true ->
  (forall e', In e' (data d') -> isValid (Data.cursor (cursor e')) = true ->
              cursorKeyToString (Data.cursor (cursor e'))
              = cursorKeyToString (Data.cursor (cursor e)) -> e' = e) ->
  String.prefix "d:" (cursorKeyToString (Data.cursor (cursor e))) = false ->
  String.prefix "f:" (cursorKeyToString (Data.cursor (cursor e))) = false ->
  db !! cursorKeyToString (Data.cursor (cursor e))
  = Some (Stream [IBytes (cursorKeyToString (Data.cursor (reference e)));
                  ISet (references e)]).
Proof.
  intros Hw Hin Hv Huniq Hd Hf.
  apply writeData_written in Hw as [_ [= ->]]. unfold written.
  rewrite lookup_insert_ne by (symmetry; by apply cursorKeyToString_not_space).
  rewrite writeDependencies_fold_other by (intros; by apply prefix_false_ne).
  rewrite (proj2 (writeDict_spec _ _)) by (intros; by apply prefix_false_ne).
  by apply writeEntry_fold_entry.
Qed.

(** X15. The dictionary records.  After [writeData], the database holds
    under "d:" and a name of the dictionary the locations recorded for the
    name; the later writes do not touch these records. *)
Theorem dictionary_record_written (db0 db : DB) (d d' : CollectData)
    (n : string) (set : gset string) :
  writeData (Some db0) d = Ok (d', Some db) ->
  snd (fst (writeEntries (data d') db0)) !! n = Some set ->
  db !! ("d:" ++ n) = Some (Raw (locs set)).
Proof.
  intros Hw Hn. apply writeData_written in Hw as [_ [= ->]]. unfold written.
  unfold writeEntries in Hn. rewrite writeEntries_fold in Hn. simpl in Hn.
  rewrite lookup_insert_ne by (norm_append; discriminate).
  rewrite writeDependencies_fold_other by (intros; norm_append; discriminate).
  by apply writeDict_spec.
Qed.

Lemma readRecord_dependencyValue (dep : Dependencies) :
  readRecord ("f:" ++ file dep) (dependencyValue dep) = dep.
Proof. by destruct dep. Qed.

Lemma dependency_record_written_aux (db0 db : DB) (d d' : CollectData)
    (dep : Dependencies) :
  writeData (Some db0) d = Ok (d', Some db) ->
  In dep (dependencies d') ->
  (forall dep', In dep' (dependencies d') -> file dep' = file dep -> dep' = dep) ->
  recordOf db (file dep) = Some dep.
Proof.
  intros Hw Hin Huniq. apply writeData_written in Hw as [_ [= ->]].
  unfold recordOf, written.
  rewrite lookup_insert_ne by (norm_append; discriminate).
  rewrite writeDependencies_fold_record by done. simpl.
  by rewrite readRecord_dependencyValue.
Qed.

(** X16. The dependency records.  After [writeData], the scan reads for
    the file of a dependency record of the store that very record, when
    the store has no other record for the file. *)
Theorem dependency_record_round_trip (db0 db : DB) (d d' : CollectData)
    (dep : Dependencies) :
  writeData (Some db0) d = Ok (d', Some db) ->
  In dep (dependencies d') ->
  (forall dep', In dep' (dependencies d') -> file dep' = file dep -> dep' = dep) ->
  recordOf db (file dep) = Some dep.
Proof. apply dependency_record_written_aux. Qed.

Lemma writeData_indexed :
  writeData (Some ∅) indexedStore = Ok (indexedFinal, Some indexedDB).
Proof. vm_compute. reflexivity. Qed.

(** The record of the definition of [f()] in the database of
    [headerAndSource]: it refers to itself and is referred to from the
    declaration in a.h. *)
Lemma symbol_record_written_witness :
  indexedDB !! "/src/a.cpp:3:6"
  = Some (Stream [IBytes "/src/a.cpp:3:6"; ISet {["/src/a.h:1:6"]}]).
Proof.
  apply (symbol_record_written ∅ indexedDB indexedStore indexedFinal definitionEntry
           writeData_indexed).
  - vm_compute. right. left. reflexivity.
  - reflexivity.
  - intros e' Hin. vm_compute in Hin. destruct Hin as [<-|[<-|[]]]; intros _ H.
    + vm_compute in H. discriminate.
    + reflexivity.
  - reflexivity.
  - reflexivity.
Defined.

(** The dictionary record of [f()] in the database of [headerAndSource]. *)
Lemma dictionary_record_written_witness :
  exists set, indexedDB !! "d:f()" = Some (Raw (locs set))
              /\ "/src/a.cpp:3:6" ∈ set.
Proof.
  eexists. split.
  - apply (dictionary_record_written ∅ indexedDB indexedStore indexedFinal "f()" _
             writeData_indexed).
    vm_compute. reflexivity.
  - vm_compute. set_solver.
Defined.

(** The dependency record of a.cpp in the database of [headerAndSource]. *)
Lemma dependency_record_round_trip_witness :
  recordOf indexedDB "/src/a.cpp" = Some sourceRecord.
Proof.
  apply (dependency_record_round_trip ∅ indexedDB indexedStore indexedFinal sourceRecord
           writeData_indexed).
  - vm_compute. left. reflexivity.
  - intros dep' Hin. vm_compute in Hin. by destruct Hin as [<-|[]].
Defined.

(** ** Reading a database back *)

Section Reload.
Context `{FS : FileSystem}.

Lemma scan_known (it : list (string * DBValue)) (dirty : gmap Path GccArguments)
    (known : list Dependencies) :
  snd (scan it dirty known)
  = (known ++ map (fun kv => readRecord (fst kv) (snd kv)) (visited it))%list.
Proof.
  revert dirty known; induction it as [|[k v] it IH]; intros dirty known; simpl;
    [by rewrite app_nil_r|].
  destruct (String.prefix "f:" k); simpl; [|by rewrite app_nil_r].
  rewrite IH. by rewrite <- app_assoc.
Qed.

(** X17. Reading back what was written.  [updateDB] on a database that
    [writeData] has written succeeds; it appends to the entries of the
    store one default-constructed entry for every entry that was written
    (nothing of the written entries is read), it leaves the registered
    locations as they are, and it appends to the dependency records those
    that the scan reads. *)
Theorem reload_after_write (db0 db : DB) (d d' d0 : CollectData) :
  writeData (Some db0) d = Ok (d', Some db) ->
  updateDB (Some db) d0
  = (true, mkCollectData (seen d0)
             (data d0 ++ replicate (length (data d')) newDataEntry)
             (dependencies d0 ++ scanned db)).
Proof.
  intros Hw. apply writeData_written in Hw as [_ [= ->]].
  unfold updateDB, scanned.
  pose proof (scan_known (Seek "f:" (records (written db0 d'))) ∅ (dependencies d0)) as Hk.
  destruct (scan _ _ _) as [dirty known]. simpl in Hk. subst known.
  unfold written at 1. rewrite lookup_insert_eq. unfold manifestOf, readCount.
  by rewrite Nat2Z.id.
Qed.

(** X18. A database without manifest.  When the database has no record
    under the manifest key, [updateDB] fails, but not without effect: the
    dependency records that the scan has read are already appended to the
    store. *)
Theorem reload_without_manifest (db : DB) (d : CollectData) :
  db !! " " = None ->
  updateDB (Some db) d
  = (false, mkCollectData (seen d) (data d) (dependencies d ++ scanned db)).
Proof.
  intros Hm. unfold updateDB, scanned.
  pose proof (scan_known (Seek "f:" (records db)) ∅ (dependencies d)) as Hk.
  destruct (scan _ _ _) as [dirty known]. simpl in Hk. subst known.
  by rewrite Hm.
Qed.

End Reload.

(** The database of [headerAndSource], read back into the empty store. *)
Lemma reload_after_write_witness :
  updateDB (FS := plainFS) (Some indexedDB) emptyCollectData
  = (true, mkCollectData ∅ [newDataEntry; newDataEntry] [sourceRecord]).
Proof.
  rewrite (reload_after_write (FS := plainFS) ∅ indexedDB indexedStore indexedFinal
             emptyCollectData writeData_indexed).
  vm_compute. reflexivity.
Defined.

(** The database [headerDB], which has one dependency record and no
    manifest. *)
Lemma reload_without_manifest_witness :
  updateDB (FS := headerChangedFS) (Some headerDB) emptyCollectData
  = (false, mkCollectData ∅ []
              [mkDependencies "/src/a.cpp" ["-I."] 100 {["/src/a.h" := 100]}]).
Proof.
  rewrite (reload_without_manifest (FS := headerChangedFS) headerDB emptyCollectData).
  - vm_compute. reflexivity.
  - vm_compute. reflexivity.
Defined.

(** ** The dependency records of a pass *)

Lemma NoDup_fmap_In {A B : Type} (f : A -> B) (l : list A) (x y : A) :
  NoDup (f <$> l) -> In x l -> In y l -> f x = f y -> x = y.
Proof.
  induction l as [|z l IH]; [done|]. rewrite fmap_cons, NoDup_cons.
  intros [Hz Hnd] [->|Hx] [->|Hy] Heq; auto.
  - exfalso. apply Hz. rewrite Heq. apply list_elem_of_fmap. exists y.
    split; [done|by apply list_elem_of_In].
  - exfalso. apply Hz. rewrite <- Heq. apply list_elem_of_fmap. exists x.
    split; [done|by apply list_elem_of_In].
Qed.

(** A record that the scan reads in a database written from the empty
    one, where no symbol record has a key that starts with "f:", is a
    dependency record of the store. *)
Lemma scanned_written (d : CollectData) (dep : Dependencies) :
  (forall e, In e (data d) -> isValid (Data.cursor (cursor e)) = true ->
             String.prefix "f:" (cursorKeyToString (Data.cursor (cursor e))) = false) ->
  In dep (scanned (written ∅ d)) -> In dep (dependencies d).
Proof.
  intros Hkeys Hin. apply scanned_In in Hin. unfold recordOf, written in Hin.
  rewrite lookup_insert_ne in Hin by (norm_append; discriminate).
  destruct (foldl _ _ (dependencies d) !! _) as [v|] eqn:Hl; [|discriminate].
  injection Hin as Hin.
  apply writeDependencies_fold_Some in Hl as [Hl|(dep0 & Hin0 & Heq & ->)].
  - rewrite (proj2 (writeDict_spec _ _)) in Hl by (intros; norm_append; discriminate).
    rewrite writeEntry_fold_other in Hl; [by rewrite lookup_empty in Hl|].
    intros e He Hv Hk. specialize (Hkeys e He Hv). rewrite Hk in Hkeys.
    by rewrite prefix_append in Hkeys.
  - apply append_inj_l in Heq. rewrite Heq, readRecord_dependencyValue in Hin.
    by subst dep.
Qed.

(** X19. The dependency records survive the round trip.  In a database
    written from the empty one for a store with one record per file,
    where no symbol record has a key that starts with "f:", the records
    that the scan reads are exactly the dependency records of the store. *)
Theorem dependencies_round_trip (db : DB) (d d' : CollectData) (dep : Dependencies) :
  writeData (Some ∅) d = Ok (d', Some db) ->
  (forall e, In e (data d') -> isValid (Data.cursor (cursor e)) = true ->
             String.prefix "f:" (cursorKeyToString (Data.cursor (cursor e))) = false) ->
  NoDup (file <$> dependencies d') ->
  In dep (scanned db) <-> In dep (dependencies d').
Proof.
  intros Hw Hkeys Hnd. pose proof Hw as Hw'.
  apply writeData_written in Hw' as [_ [= ->]]. split.
  - by apply scanned_written.
  - intros Hin. apply scanned_In.
    apply (dependency_record_written_aux ∅ (written ∅ d') d d' dep Hw Hin).
    intros dep' Hin' Hf. by apply (NoDup_fmap_In file (dependencies d')).
Qed.

Section PassDependencies.
Context `{FE : FrontEnd} `{FS : FileSystem}.

Lemma visitChildren_dependencies (ts : list AST) (d d' : CollectData) (b : bool) :
  visitChildren ts d = Ok (b, d') -> dependencies d' = dependencies d.
Proof.
  apply (visitChildren_preserves (fun d0 => dependencies d0 = dependencies d));
    [|done].
  intros c d0 r d0' H0 Hc. apply collectSymbols_grows in Hc as (_ & _ & _ & ->). done.
Qed.

(** The record that [compile] builds for a parsed input. *)
Lemma compileInput_dependencies (args : GccArguments) (input : Path)
    (parsed : option TranslationUnit) (d d' : CollectData) :
  compileInput args input parsed d = Ok d' ->
  dependencies d'
  = (dependencies d
     ++ match parsed with
        | Some unit =>
            [clang_getInclusions unit (mkDependencies input args (lastModified input) ∅)]
        | None => []
        end)%list.
Proof.
  unfold compileInput. destruct parsed as [unit|].
  - destruct (visitChildren _ d) as [[b d1]|] eqn:Hv; simpl; [|discriminate].
    intros [= <-]. simpl. by rewrite (visitChildren_dependencies _ _ _ _ Hv).
  - intros [= <-]. by rewrite app_nil_r.
Qed.

(** X20. The dependency records of [compile].  A call of [compile] that
    is not aborted appends to the dependency records of the store one
    record for every input that the front end could parse, in the order of
    the inputs, and none for an input that it could not parse; the record
    has the input as its file, the arguments of the call, and the time of
    the input on disk. *)
Theorem compile_dependencies (args : GccArguments)
    (inputs : list (Path * option TranslationUnit)) (d d' : CollectData) :
  compile args inputs d = Ok d' ->
  exists added,
    dependencies d' = (dependencies d ++ added)%list
    /\ file <$> added = fst <$> filter (fun i => is_Some (snd i)) inputs
    /\ Forall (fun dep => arguments dep = args
                          /\ dep_lastModified dep = lastModified (file dep)) added.
Proof.
  revert d; induction inputs as [|[input parsed] inputs IH]; intros d; simpl.
  - intros [= <-]. exists []. by rewrite app_nil_r.
  - destruct (compileInput args input parsed d) as [d1|] eqn:Hc; simpl; [|discriminate].
    intros H. apply IH in H as (added & Hd & Hf & Ha).
    apply compileInput_dependencies in Hc. rewrite Hd, Hc, <- app_assoc.
    eexists. split; [reflexivity|]. destruct parsed as [unit|].
    + pose proof (clang_getInclusions_frame (unitInclusions unit)
                    (mkDependencies input args (lastModified input) ∅)) as (H1 & H2 & H3).
      fold (clang_getInclusions unit
              (mkDependencies input args (lastModified input) ∅)) in H1, H2, H3.
      simpl in H1, H2, H3.
      rewrite filter_cons_True by (simpl; eauto).
      change ([?x] ++ added)%list with (x :: added).
      rewrite !fmap_cons, Hf, H1. split; [done|].
      constructor; [|done]. by rewrite H1, H2, H3.
    + rewrite filter_cons_False by (simpl; by intros [? ?]). by simpl.
Qed.

Lemma getInclusions_current (included : string) (stack : list string)
    (deps : Dependencies) :
  (forall p t, dep_dependencies deps !! p = Some t -> t = lastModified p) ->
  forall p t, dep_dependencies (getInclusions included stack deps) !! p = Some t ->
              t = lastModified p.
Proof.
  intros Hcur. unfold getInclusions. destruct (negb _); [|exact Hcur]. simpl.
  generalize (take (Z.to_nat (Z.of_nat (length stack) - 1)) stack). intros files.
  assert (H0 : forall p t,
             <[resolved included := lastModified (resolved included)]>
               (dep_dependencies deps) !! p = Some t -> t = lastModified p).
  { intros p t. destruct (decide (resolved included = p)) as [<-|Hne].
    - rewrite lookup_insert_eq. by intros [= <-].
    - rewrite lookup_insert_ne by done. apply Hcur. }
  revert H0. generalize (<[resolved included := lastModified (resolved included)]>
                           (dep_dependencies deps)).
  induction files as [|f files IH]; intros h Hh; simpl; [exact Hh|].
  apply IH. intros p t. destruct (decide (resolved f = p)) as [<-|Hne].
  - rewrite lookup_insert_eq. by intros [= <-].
  - rewrite lookup_insert_ne by done. apply Hh.
Qed.

Lemma clang_getInclusions_current (unit : TranslationUnit) (input : Path)
    (args : GccArguments) :
  timesCurrent (clang_getInclusions unit
                  (mkDependencies input args (lastModified input) ∅)).
Proof.
  unfold timesCurrent, clang_getInclusions.
  pose proof (clang_getInclusions_frame (unitInclusions unit)
                (mkDependencies input args (lastModified input) ∅)) as (H1 & _ & H3).
  simpl in *. rewrite H1, H3. split; [done|]. clear H1 H3.
  assert (H : forall p t, dep_dependencies
                (mkDependencies input args (lastModified input) ∅) !! p = Some t ->
              t = lastModified p) by (intros p t; simpl; by rewrite lookup_empty).
  revert H. generalize (mkDependencies input args (lastModified input) ∅).
  induction (unitInclusions unit) as [|[f stack] l IH]; intros deps Hd; simpl;
    [exact Hd|].
  apply IH. by apply getInclusions_current.
Qed.

Lemma build_timesCurrent
    (items : list (GccArguments * list (Path * option TranslationUnit)))
    (d d' : CollectData) :
  Forall timesCurrent (dependencies d) -> build items d = Ok d' ->
  Forall timesCurrent (dependencies d').
Proof.
  assert (Hcompile : forall args inputs d d',
             Forall timesCurrent (dependencies d) -> compile args inputs d = Ok d' ->
             Forall timesCurrent (dependencies d')).
  { intros args inputs. induction inputs as [|[input parsed] inputs IH];
      intros d0 d1 Hd; simpl; [by intros [= <-]|].
    destruct (compileInput args input parsed d0) as [d2|] eqn:Hc; simpl; [|discriminate].
    apply IH. apply compileInput_dependencies in Hc. rewrite Hc.
    apply Forall_app. split; [exact Hd|]. destruct parsed; [|constructor].
    constructor; [apply clang_getInclusions_current|constructor]. }
  revert d. induction items as [|[args inputs] items IH]; intros d Hd; simpl.
  - by intros [= <-].
  - destruct (compile args inputs d) as [d1|] eqn:Hc; simpl; [|discriminate].
    apply IH. by apply (Hcompile args inputs d).
Qed.

(** X21. The times of the dependency records.  After an indexing pass from
    the empty store, every dependency record has as its time the time of
    its file on disk, and every included file of the record has as its
    time the time of that file on disk. *)
Theorem recorded_times_current
    (items : list (GccArguments * list (Path * option TranslationUnit)))
    (d : CollectData) (dep : Dependencies) :
  build items emptyCollectData = Ok d ->
  In dep (dependencies d) ->
  dep_lastModified dep = lastModified (file dep)
  /\ forall p t, dep_dependencies dep !! p = Some t -> t = lastModified p.
Proof.
  intros Hb Hin. apply build_timesCurrent in Hb; [|constructor].
  rewrite Forall_forall in Hb. apply Hb. by apply list_elem_of_In.
Qed.

(** X22. Nothing is stale right after indexing.  For the database that
    [writeData] writes, from the empty one, for the store of an indexing
    pass, the dirty set of the staleness scan is empty as long as the
    files on disk are as they were, provided no symbol record has a key
    that starts with "f:". *)
Theorem fresh_index_is_clean
    (items : list (GccArguments * list (Path * option TranslationUnit)))
    (d d' : CollectData) (db : DB) :
  build items emptyCollectData = Ok d ->
  writeData (Some ∅) d = Ok (d', Some db) ->
  (forall e, In e (data d') -> isValid (Data.cursor (cursor e)) = true ->
             String.prefix "f:" (cursorKeyToString (Data.cursor (cursor e))) = false) ->
  dirtyFiles db = ∅.
Proof.
  intros Hb Hw Hkeys. apply writeData_written in Hw as [Hpass [= ->]].
  apply propagateAll_frame in Hpass as (_ & _ & Hdeps).
  apply build_timesCurrent in Hb; [|constructor]. rewrite <- Hdeps in Hb.
  rewrite Forall_forall in Hb.
  assert (Hcur : forall dep, In dep (scanned (written ∅ d')) -> timesCurrent dep).
  { intros dep Hin. apply Hb, list_elem_of_In. by apply scanned_written. }
  rewrite dirtyFiles_fold. apply map_eq. intros p. rewrite lookup_empty.
  apply eq_None_not_Some. rewrite scan_fold_dom, lookup_empty.
  intros [[? [=]]|[(a & dep & Hin & <- & _ & Hc)|(dep & t & Hin & Ht & Hc)]].
  - by destruct (Hcur dep Hin) as [? _].
  - destruct (Hcur dep Hin) as [_ H]. by rewrite (H p t Ht) in Hc.
Qed.

End PassDependencies.

Lemma build_including :
  build (FE := macroFE) (FS := headerChangedFS) includingBuild emptyCollectData
  = Ok includingStore.
Proof. vm_compute. reflexivity. Qed.

Lemma compile_including :
  compile (FE := macroFE) (FS := headerChangedFS) ["-I."] includingInputs
    emptyCollectData
  = Ok includingStore.
Proof. vm_compute. reflexivity. Qed.

Lemma writeData_including :
  writeData (Some ∅) includingStore = Ok (includingFinal, Some includingDB).
Proof. vm_compute. reflexivity. Qed.

Lemma including_keys (e : DataEntry) :
  In e (data includingFinal) -> isValid (Data.cursor (cursor e)) = true ->
  String.prefix "f:" (cursorKeyToString (Data.cursor (cursor e))) = false.
Proof.
  intros Hin. vm_compute in Hin.
  repeat (destruct Hin as [ <- | Hin ]; [vm_compute; intros; done|]). destruct Hin.
Qed.

(** The database of [includingBuild]: the scan reads the record of a.cpp
    as the store has it. *)
Lemma dependencies_round_trip_witness :
  In includingRecord (scanned includingDB)
  <-> In includingRecord (dependencies includingFinal).
Proof.
  apply (dependencies_round_trip includingDB includingStore includingFinal
           includingRecord writeData_including including_keys).
  vm_compute. apply NoDup_singleton.
Defined.

(** The inputs of [includingBuild]: one record, for a.cpp, and none for
    gone.cpp. *)
Lemma compile_dependencies_witness :
  exists added,
    dependencies includingStore = (dependencies emptyCollectData ++ added)%list
    /\ file <$> added
       = fst <$> filter (fun i => is_Some (snd i)) includingInputs
    /\ Forall (fun dep => arguments dep = ["-I."]
                 /\ dep_lastModified dep
                    = lastModified (FileSystem := headerChangedFS) (file dep)) added.
Proof.
  apply (compile_dependencies (FE := macroFE) (FS := headerChangedFS) ["-I."]
           includingInputs emptyCollectData includingStore compile_including).
Defined.

(** The record of a.cpp in [includingStore] has the times of a.cpp and of
    a.h on the disk of [headerChangedFS]. *)
Lemma recorded_times_current_witness :
  dep_lastModified includingRecord
  = lastModified (FileSystem := headerChangedFS) (file includingRecord)
  /\ forall p t, dep_dependencies includingRecord !! p = Some t ->
                 t = lastModified (FileSystem := headerChangedFS) p.
Proof.
  apply (recorded_times_current (FE := macroFE) (FS := headerChangedFS)
           includingBuild includingStore includingRecord build_including).
  vm_compute. left. reflexivity.
Defined.

(** The database of [includingBuild] on the disk of [headerChangedFS]. *)
Lemma fresh_index_is_clean_witness :
  dirtyFiles (FS := headerChangedFS) includingDB = ∅.
Proof.
  apply (fresh_index_is_clean (FE := macroFE) (FS := headerChangedFS)
           includingBuild includingStore includingFinal includingDB
           build_including writeData_including including_keys).
Defined.

(** ** The names of the enclosing scopes *)

Section ScopeNames.
Context `{FE : FrontEnd} `{FS : FileSystem}.

Lemma addParents_scopeNames (parents : list CXCursor) (names : list string) :
  addParents parents names = Ok (names ++ scopeNames parents)%list.
Proof.
  revert names; induction parents as [|p ps IH]; intros names; simpl.
  - by rewrite app_nil_r.
  - destruct (isValid (CursorKey_of p)) eqn:Hv; simpl; [|by rewrite app_nil_r].
    destruct (isContainer (kind (CursorKey_of p))); [|apply IH].
    apply isValid_fields in Hv as [_ Hs].
    destruct (symbolName (CursorKey_of p)) eqn:Hn; [done|]. simpl.
    by rewrite IH, <- app_assoc.
Qed.

(** X23. What [addCursor] stores.  On a key that is not valid [addCursor]
    aborts (its assertion fails).  On a valid key it never aborts: the
    assertion on the names of the parents cannot fail; it stores the key
    and appends, to the parent names that the [Data] already has, the
    names of the struct, class and namespace cursors among the semantic
    parents of the cursor, the innermost first, up to the first parent
    whose key is not valid. *)
Theorem addCursor_appends (c : CXCursor) (key : CursorKey) (d : Data.Data) :
  addCursor c key d
  = if isValid key
    then Ok (Data.mk key (Data.parentNames d ++ scopeNames (semanticAncestors c))%list)
    else Abort.
Proof.
  unfold addCursor. destruct (isValid key); simpl; [|done].
  by rewrite addParents_scopeNames.
Qed.

End ScopeNames.

(** ** What the back-reference pass changes *)

Lemma setEntry_lookup (q p : EntryPtr) (e' e0 : DataEntry) (d : CollectData) :
  data d !! q = Some e0 ->
  data (setEntry q e' d) !! p = if decide (q = p) then Some e' else data d !! p.
Proof.
  intros Hq. unfold setEntry. simpl. destruct (decide (q = p)) as [<-|Hne].
  - apply list_lookup_insert_eq. by eapply lookup_lt_Some.
  - by apply list_lookup_insert_ne.
Qed.

Lemma propagate_keeps (p : EntryPtr) (d d1 : CollectData) :
  propagate p d = Ok d1 ->
  forall q e, data d !! q = Some e ->
    exists e1, data d1 !! q = Some e1
      /\ cursor e1 = cursor e /\ hasDefinition e1 = hasDefinition e
      /\ references e ⊆ references e1
      /\ (reference e1 = reference e
          \/ exists em, data d !! p = Some em
               /\ isMethodKind (kind (Data.cursor (cursor em))) = true
               /\ reference e1 = cursor em).
Proof.
  unfold propagate. destruct (data d !! p) as [entry|] eqn:Hp; [|discriminate].
  assert (Hsame : forall q e, data d !! q = Some e ->
            exists e1, data d !! q = Some e1
              /\ cursor e1 = cursor e /\ hasDefinition e1 = hasDefinition e
              /\ references e ⊆ references e1
              /\ (reference e1 = reference e
                  \/ exists em, Some entry = Some em
                       /\ isMethodKind (kind (Data.cursor (cursor em))) = true
                       /\ reference e1 = cursor em)).
  { intros q e Hq. exists e. repeat split; auto. }
  destruct (isMethodKind _) eqn:Hm.
  - destruct (_ && _); [|by intros [= <-]].
    destruct (seen d !! _) as [q0|]; [|discriminate].
    unfold Q_ASSERT. destruct (negb _); simpl; [|discriminate].
    destruct (data d !! q0) as [target|] eqn:Hq0; [|discriminate].
    intros [= <-] q e Hq. rewrite (setEntry_lookup _ _ _ _ _ Hq0).
    destruct (decide (q0 = q)) as [->|Hne]; [|auto].
    rewrite Hq0 in Hq. injection Hq as <-. eexists. split; [reflexivity|]. simpl.
    repeat split; auto. right. by exists entry.
  - destruct (seen d !! _) as [r|]; [|by intros [= <-]].
    destruct (r =? p)%nat; [by intros [= <-]|].
    destruct (data d !! r) as [target|] eqn:Hr; [|discriminate].
    intros [= <-] q e Hq. rewrite (setEntry_lookup _ _ _ _ _ Hr).
    destruct (decide (r = q)) as [->|Hne]; [|auto].
    rewrite Hr in Hq. injection Hq as <-. eexists. split; [reflexivity|]. simpl.
    repeat split; auto. apply union_subseteq_r.
Qed.

Lemma propagateAll_keeps (ps : list EntryPtr) (d d' : CollectData) :
  propagateAll ps d = Ok d' ->
  forall q e, data d !! q = Some e ->
    exists e', data d' !! q = Some e'
      /\ cursor e' = cursor e /\ hasDefinition e' = hasDefinition e
      /\ references e ⊆ references e'
      /\ (reference e' = reference e
          \/ exists m em, data d !! m = Some em
               /\ isMethodKind (kind (Data.cursor (cursor em))) = true
               /\ reference e' = cursor em).
Proof.
  revert d; induction ps as [|p ps IH]; intros d; simpl.
  - intros [= <-] q e Hq. exists e. repeat split; auto.
  - destruct (propagate p d) as [d1|] eqn:Hp; simpl; [|discriminate].
    intros H q e Hq.
    destruct (propagate_keeps p d d1 Hp q e Hq) as (e1 & Hq1 & Hc1 & Hd1 & Hr1 & Href1).
    destruct (IH d1 H q e1 Hq1) as (e' & Hq' & Hc' & Hd' & Hr' & Href').
    exists e'. split; [done|]. split; [congruence|]. split; [congruence|].
    split; [by etrans|].
    destruct Href' as [Heq|(m & em & Hm & Hk & Heq)].
    + destruct Href1 as [Heq1|(em & Hm & Hk & Heq1)].
      * left. congruence.
      * right. exists p, em. repeat split; auto. congruence.
    + assert (Hlt : (m < length (data d))%nat).
      { apply propagate_frame in Hp as (_ & <- & _). by eapply lookup_lt_Some. }
      apply lookup_lt_is_Some_2 in Hlt as [em0 Hm0].
      destruct (propagate_keeps p d d1 Hp m em0 Hm0) as (em1 & Hm1 & Hcm & _).
      rewrite Hm in Hm1. injection Hm1 as <-.
      right. exists m, em0. repeat split; auto; congruence.
Qed.

(** X24. What the back-reference pass leaves alone.  The first loop of
    [writeData], when it is not aborted, keeps the registered locations,
    the dependency records and the number of entries; every entry keeps
    its cursor (key and parent names) and its definition flag, and loses
    no back-reference; its reference is as before or has become the
    cursor of a method, constructor or destructor entry of the store. *)
Theorem pass_keeps (d d' : CollectData) :
  backReferences d = Ok d' ->
  seen d' = seen d /\ dependencies d' = dependencies d
  /\ length (data d') = length (data d)
  /\ forall q e, data d !! q = Some e ->
       exists e', data d' !! q = Some e'
         /\ cursor e' = cursor e /\ hasDefinition e' = hasDefinition e
         /\ references e ⊆ references e'
         /\ (reference e' = reference e
             \/ exists m em, data d !! m = Some em
                  /\ isMethodKind (kind (Data.cursor (cursor em))) = true
                  /\ reference e' = cursor em).
Proof.
  unfold backReferences. intros H.
  destruct (propagateAll_frame _ _ _ H) as (Hs & Hl & Hd).
  repeat split; auto. by apply propagateAll_keeps with (ps := seq 0 (length (data d))).
Qed.

Lemma backReferences_method : backReferences methodIndexed = Ok methodFinal.
Proof. vm_compute. reflexivity. Qed.

(** The store of [methodBuild]: the pass gives the entry of the definition
    of the method the declaration as its reference. *)
Lemma pass_keeps_witness :
  seen methodFinal = seen methodIndexed
  /\ dependencies methodFinal = dependencies methodIndexed
  /\ length (data methodFinal) = length (data methodIndexed)
  /\ forall q e, data methodIndexed !! q = Some e ->
       exists e', data methodFinal !! q = Some e'
         /\ cursor e' = cursor e /\ hasDefinition e' = hasDefinition e
         /\ references e ⊆ references e'
         /\ (reference e' = reference e
             \/ exists m em, data methodIndexed !! m = Some em
                  /\ isMethodKind (kind (Data.cursor (cursor em))) = true
                  /\ reference e' = cursor em).
Proof.
  apply (pass_keeps methodIndexed methodFinal backReferences_method).
Defined.

(** ** The back-references of a store without methods *)

Lemma propagate_plain (p : EntryPtr) (d : CollectData) (entry : DataEntry) :
  (forall lk q, seen d !! lk = Some q -> (q < length (data d))%nat) ->
  data d !! p = Some entry ->
  isMethodKind (kind (Data.cursor (cursor entry))) = false ->
  exists d1, propagate p d = Ok d1
    /\ forall r e, data d !! r = Some e ->
         exists e1, data d1 !! r = Some e1
           /\ cursor e1 = cursor e /\ reference e1 = reference e
           /\ hasDefinition e1 = hasDefinition e
           /\ forall s, s ∈ references e1 <->
                (s ∈ references e
                 \/ (p <> r
                     /\ seen d !! locationKey (Data.cursor (reference entry)) = Some r
                     /\ s = cursorKeyToString (Data.cursor (cursor entry)))).
Proof.
  intros Hreg Hp Hm. unfold propagate. rewrite Hp, Hm.
  destruct (seen d !! _) as [r0|] eqn:Hs.
  - destruct (Nat.eqb_spec r0 p) as [->|Hne].
    + exists d. split; [done|]. intros r e Hr. exists e. repeat split; auto.
      intros [?|(Hpr & [= ->] & _)]; done.
    + destruct (lookup_lt_is_Some_2 _ _ (Hreg _ _ Hs)) as [target Ht]. rewrite Ht.
      eexists. split; [reflexivity|]. intros r e Hr.
      rewrite (setEntry_lookup _ _ _ _ _ Ht). destruct (decide (r0 = r)) as [->|Hne'].
      * rewrite Ht in Hr. injection Hr as <-. eexists. split; [reflexivity|]. simpl.
        repeat split; auto.
        -- intros [->%elem_of_singleton|?]%elem_of_union; auto.
        -- intros [?|(_ & _ & ->)]; apply elem_of_union; [by right|].
           left. by apply elem_of_singleton.
      * exists e. repeat split; auto. intros [?|(_ & [= ->] & _)]; done.
  - exists d. split; [done|]. intros r e Hr. exists e. repeat split; auto.
    intros [?|(_ & [=] & _)]; done.
Qed.

Lemma propagateAll_plain (ps : list EntryPtr) (d : CollectData) :
  (forall lk q, seen d !! lk = Some q -> (q < length (data d))%nat) ->
  (forall p e, data d !! p = Some e ->
               isMethodKind (kind (Data.cursor (cursor e))) = false) ->
  (forall p, In p ps -> (p < length (data d))%nat) ->
  exists d', propagateAll ps d = Ok d'
    /\ forall r e, data d !! r = Some e ->
         exists e', data d' !! r = Some e'
           /\ cursor e' = cursor e /\ reference e' = reference e
           /\ hasDefinition e' = hasDefinition e
           /\ forall s, s ∈ references e' <->
                (s ∈ references e
                 \/ exists p ep, In p ps /\ p <> r /\ data d !! p = Some ep
                      /\ seen d !! locationKey (Data.cursor (reference ep)) = Some r
                      /\ s = cursorKeyToString (Data.cursor (cursor ep))).
Proof.
  revert d; induction ps as [|p ps IH]; intros d Hreg Hplain Hps; simpl.
  - exists d. split; [done|]. intros r e Hr. exists e. repeat split; auto.
    intros [?|(? & ? & [] & _)]. done.
  - destruct (lookup_lt_is_Some_2 _ _ (Hps p (or_introl eq_refl))) as [entry Hp].
    destruct (propagate_plain p d entry Hreg Hp (Hplain p entry Hp)) as (d1 & Hd1 & Hstep).
    rewrite Hd1. simpl.
    destruct (propagate_frame _ _ _ Hd1) as (Hseen & Hlen & _).
    assert (Hback : forall q e1, data d1 !! q = Some e1 ->
              exists e, data d !! q = Some e
                /\ cursor e1 = cursor e /\ reference e1 = reference e).
    { intros q e1 Hq. assert (Hlt : (q < length (data d))%nat).
      { rewrite <- Hlen. by eapply lookup_lt_Some. }
      apply lookup_lt_is_Some_2 in Hlt as [e He]. exists e. split; [done|].
      destruct (Hstep q e He) as (e1' & Hq' & Hc & Hr & _).
      rewrite Hq in Hq'. injection Hq' as <-. done. }
    destruct (IH d1) as (d' & Hd' & Hrest).
    { intros lk q. rewrite Hseen, Hlen. apply Hreg. }
    { intros q e1 Hq. destruct (Hback q e1 Hq) as (e & He & -> & _). eauto. }
    { intros q Hq. rewrite Hlen. apply Hps. by right. }
    exists d'. split; [done|]. intros r e Hr.
    destruct (Hstep r e Hr) as (e1 & Hr1 & Hc1 & Href1 & Hdef1 & Hrefs1).
    destruct (Hrest r e1 Hr1) as (e' & Hr' & Hc' & Href' & Hdef' & Hrefs').
    exists e'. split; [done|]. split; [congruence|]. split; [congruence|].
    split; [congruence|]. intros s. rewrite Hrefs', Hrefs1. split.
    + intros [[?|(Hne & Hs & ->)]|(q & eq1 & Hin & Hne & Hq & Hs & ->)].
      * by left.
      * right. exists p, entry. repeat split; auto.
      * right. destruct (Hback q eq1 Hq) as (eq0 & Hq0 & Hcq & Hrq).
        exists q, eq0. rewrite <- Hcq, <- Hrq, <- Hseen. repeat split; auto.
    + intros [?|(q & eq0 & [<-|Hin] & Hne & Hq & Hs & ->)].
      * left. by left.
      * rewrite Hp in Hq. injection Hq as <-. left. right. done.
      * right. destruct (Hstep q eq0 Hq) as (eq1 & Hq1 & Hcq & Hrq & _).
        exists q, eq1. rewrite Hcq, Hrq, Hseen. repeat split; auto.
Qed.

Section PlainStores.
Context `{FE : FrontEnd} `{FS : FileSystem}.

(** X25. The back-references of a store without methods.  After an
    indexing pass from the empty store in which no entry is that of a
    method, constructor or destructor, the first loop of [writeData] is not
    aborted; every entry keeps its cursor, its reference and its definition
    flag, and its back-references are exactly the location strings of the
    other entries whose reference is registered at the entry. *)
Theorem back_references_exact
    (items : list (GccArguments * list (Path * option TranslationUnit)))
    (d : CollectData) :
  build items emptyCollectData = Ok d ->
  (forall p e, data d !! p = Some e ->
               isMethodKind (kind (Data.cursor (cursor e))) = false) ->
  exists d', backReferences d = Ok d'
    /\ forall r e, data d !! r = Some e ->
         exists e', data d' !! r = Some e'
           /\ cursor e' = cursor e /\ reference e' = reference e
           /\ hasDefinition e' = hasDefinition e
           /\ forall s, s ∈ references e' <->
                exists p ep, p <> r /\ data d !! p = Some ep
                  /\ seen d !! locationKey (Data.cursor (reference ep)) = Some r
                  /\ s = cursorKeyToString (Data.cursor (cursor ep)).
Proof.
  intros Hb Hplain.
  assert (Hreg : registry d).
  { revert Hb. apply (build_preserves registry).
    - intros c d0 r d0'. apply collectSymbols_registry.
    - intros d0 deps H. exact H.
    - split; [|split].
      + intros lk p H. simpl in H. by rewrite lookup_empty in H.
      + intros lk1 lk2 p H. simpl in H. by rewrite lookup_empty in H.
      + intros p H. simpl in H. lia. }
  apply build_wellFormed in Hb as (_ & _ & Hent); [|apply wellFormed_empty].
  destruct (propagateAll_plain (seq 0 (length (data d))) d (proj1 Hreg) Hplain)
    as (d' & Hd' & Hrefs).
  { intros p Hp. apply in_seq in Hp. lia. }
  exists d'. split; [exact Hd'|]. intros r e Hr.
  destruct (Hrefs r e Hr) as (e' & Hr' & Hc & Href & Hdef & Hiff).
  exists e'. repeat split; auto.
  - intros Hs. apply Hiff in Hs as [Hs|(p & ep & _ & Hne & Hp & Hsn & ->)].
    + destruct (Hent r e Hr) as [He _]. rewrite He in Hs. by apply not_elem_of_empty in Hs.
    + by exists p, ep.
  - intros (p & ep & Hne & Hp & Hsn & ->). apply Hiff. right. exists p, ep.
    repeat split; auto. apply in_seq. apply lookup_lt_Some in Hp. lia.
Qed.

End PlainStores.

Lemma build_indexed :
  build (FE := upgradeFE) (FS := plainFS) headerAndSource emptyCollectData
  = Ok indexedStore.
Proof. vm_compute. reflexivity. Qed.

Lemma indexed_plain (p : EntryPtr) (e : DataEntry) :
  data indexedStore !! p = Some e ->
  isMethodKind (kind (Data.cursor (cursor e))) = false.
Proof.
  intros H. apply list_elem_of_lookup_2, list_elem_of_In in H. vm_compute in H.
  repeat (destruct H as [ <- | H ]; [vm_compute; reflexivity|]). destruct H.
Qed.

(** The store of [headerAndSource], which has functions only. *)
Lemma back_references_exact_witness :
  exists d', backReferences indexedStore = Ok d'
    /\ forall r e, data indexedStore !! r = Some e ->
         exists e', data d' !! r = Some e'
           /\ cursor e' = cursor e /\ reference e' = reference e
           /\ hasDefinition e' = hasDefinition e
           /\ forall s, s ∈ references e' <->
                exists p ep, p <> r /\ data indexedStore !! p = Some ep
                  /\ seen indexedStore !! locationKey (Data.cursor (reference ep)) = Some r
                  /\ s = cursorKeyToString (Data.cursor (cursor ep)).
Proof.
  apply (back_references_exact (FE := upgradeFE) (FS := plainFS)
           headerAndSource indexedStore build_indexed indexed_plain).
Defined.
